(** * Bonfire music cog: per-guild playback state, skip votes and commands

  A shallow embedding of [cogs/music.py]: the [VoiceState] class (one per
  guild), the [Music] cog that owns the guild-id-to-state dictionary, and
  the chat commands that inspect or drive playback.  Python objects that
  are mutated in place are modelled by explicit state passing; what a
  command sends to the chat is returned as a list of events. *)

From Stdlib Require Import ZArith QArith Qround String Ascii List Lia.
From stdpp Require Import base gmap sets list strings.

Open Scope Z_scope.

(** ** Python string operations used by the cog

    Strings are sequences of characters with code points below 256. *)

Module Py.

(** [needle in hay] on [str]. *)
Fixpoint contains (needle hay : string) : bool :=
  String.prefix needle hay ||
  match hay with
  | EmptyString => false
  | String _ rest => contains needle rest
  end.

(** [s[:n]]. *)
Fixpoint take (n : nat) (s : string) : string :=
  match n, s with
  | S k, String c rest => String c (take k rest)
  | _, _ => EmptyString
  end.

(** Characters for which [str.isspace] holds, among code points below 256. *)
Definition isspace (c : ascii) : bool :=
  let n := nat_of_ascii c in
  ((9 <=? n)%nat && (n <=? 13)%nat) || ((28 <=? n)%nat && (n <=? 32)%nat)
  || (n =? 133)%nat || (n =? 160)%nat.

Fixpoint rev_string (acc : list ascii) (tl : string) : string :=
  match acc with
  | [] => tl
  | c :: acc' => rev_string acc' (String c tl)
  end.

(** [s.split(sep)] for a non-empty separator.  [skip] counts the
    characters of a separator occurrence still to be consumed and [cur]
    holds the piece being read, last character first. *)
Fixpoint split_go (sep s : string) (skip : nat) (cur : list ascii) : list string :=
  match s with
  | EmptyString => [rev_string cur EmptyString]
  | String c rest =>
      match skip with
      | S k => split_go sep rest k cur
      | O =>
          if String.prefix sep s
          then rev_string cur EmptyString :: split_go sep rest (String.length sep - 1) []
          else split_go sep rest O (c :: cur)
      end
  end.

Definition split (sep s : string) : list string := split_go sep s O [].

(** [s.split()]: the maximal runs of non-whitespace characters. *)
Fixpoint words_go (s : string) (cur : list ascii) : list string :=
  match s with
  | EmptyString =>
      match cur with [] => [] | _ => [rev_string cur EmptyString] end
  | String c rest =>
      if isspace c
      then match cur with
           | [] => words_go rest []
           | _ => rev_string cur EmptyString :: words_go rest []
           end
      else words_go rest (c :: cur)
  end.

Definition words (s : string) : list string := words_go s [].

(** [sep.join(l)]. *)
Definition join (sep : string) (l : list string) : string := String.concat sep l.

(** [re.sub('[<>\[\]]', '', s)]. *)
Fixpoint strip_brackets (s : string) : string :=
  match s with
  | EmptyString => EmptyString
  | String c rest =>
      if (Ascii.eqb c "<" || Ascii.eqb c ">" || Ascii.eqb c "[" || Ascii.eqb c "]")%char
      then strip_brackets rest
      else String c (strip_brackets rest)
  end.

(** A string of [n] copies of [c] (Python's [c * n]). *)
Fixpoint replicate (n : nat) (c : ascii) : string :=
  match n with
  | O => EmptyString
  | S k => String c (replicate k c)
  end.

(** [math.ceil] of a rational. *)
Definition ceil (q : Q) : Z := Qceiling q.

(** The least magnitude that no longer rounds to a float: halfway between
    the largest float and [2 ^ 1024]. *)
Definition float_limit : Z := 2 ^ 1024 - 2 ^ 970.

(** [n / d] on integers with [d] positive, a float.  The exact quotient
    stands for its correctly rounded value; [None] when the quotient is
    too large for a float and the division raises [OverflowError]. *)
Definition truediv (n : Z) (d : positive) : option Q :=
  if Z.abs n <? float_limit * Z.pos d
  then Some (inject_Z n / inject_Z (Z.pos d))%Q
  else None.

(** [max(x, 0.0)]. *)
Definition max0 (x : Q) : Q := if Qle_bool 0 x then x else 0%Q.

(** [divmod(n, d)] on integers (floor division, as in Python). *)
Definition divmod (n d : Z) : Z * Z := (n / d, n mod d).

End Py.


(** ** Data model *)

(** Snowflake ids are strings in the library version the cog is written for. *)
Definition snowflake := string.

(** A chat user as the cog sees one: members compare by id;
    [voice_channel] is the id of the voice channel the member is in. *)
Record Member := {
  member_id : snowflake;
  voice_channel : option snowflake;
}.

(** [a == b] on members. *)
Definition Member_eqb (a b : Member) : bool :=
  bool_decide (member_id a = member_id b).

(** A voice channel with its live member list. *)
Record Channel := {
  channel_id : snowflake;
  voice_members : list snowflake;
}.

(** [a != b] where [b] may be [None]: channels compare by id. *)
Definition Channel_neb (a : Channel) (b : option snowflake) : bool :=
  negb (bool_decide (Some (channel_id a) = b)).

Record VoiceClient := {
  channel : Channel;
}.

(** The library's stream player: [is_done], [stop], [pause], [resume] and
    the [volume] attribute are all the cog touches. *)
Module Player.

Record t := {
  done : bool;
  paused : bool;
  volume : Q;
}.

Definition is_done (p : t) : bool := done p.
Definition stop (p : t) : t :=
  {| done := true; paused := paused p; volume := volume p |}.
Definition pause (p : t) : t :=
  {| done := done p; paused := true; volume := volume p |}.
Definition resume (p : t) : t :=
  {| done := done p; paused := false; volume := volume p |}.
(** The [volume] setter of the library: the player keeps [max(v, 0.0)]. *)
Definition set_volume (v : Q) (p : t) : t :=
  {| done := done p; paused := paused p; volume := Py.max0 v |}.
(** A player as [create_ffmpeg_player] followed by [start] leaves it. *)
Definition started : t :=
  {| done := false; paused := false; volume := 1 |}.

End Player.

Module Entry.

(** Modelled from the spec: the playlist entry class lives in
    [voice_utilities], which is not among the sources.  The attributes the
    cog reads are fields: the requester, the track's [duration] in seconds,
    the time-dependent [remaining], [progress] and [length] as read when a
    command runs ([None] while playback has not begun or the metadata is
    absent), the staged [filename] and the [player] ([None] until the audio
    worker has created it). *)
Record t := {
  requester : Member;
  duration : Z;
  remaining : Z;
  progress : option Z;
  length : option Z;
  filename : option string;
  player : option Player.t;
}.

Definition set_player (p : option Player.t) (e : t) : t :=
  {| requester := requester e; duration := duration e; remaining := remaining e;
     progress := progress e; length := length e; filename := filename e;
     player := p |}.

Definition set_filename (f : option string) (e : t) : t :=
  {| requester := requester e; duration := duration e; remaining := remaining e;
     progress := progress e; length := length e; filename := f;
     player := player e |}.

End Entry.

Module Playlist.

(** Modelled from the spec: the [Playlist] class lives in [voice_utilities],
    which is not among the sources.  It is a FIFO of entries bounded by a
    fixed capacity; [full] holds when the size has reached the capacity. *)
Record t := {
  entries : list Entry.t;
  capacity : nat;
}.

Definition full (pl : t) : bool := (capacity pl <=? List.length (entries pl))%nat.

Definition append (e : Entry.t) (pl : t) : t :=
  {| entries := entries pl ++ [e]; capacity := capacity pl |}.

(** [get_next_entry]: the oldest entry, removed, or [None] when empty. *)
Definition get_next_entry (pl : t) : option Entry.t * t :=
  match entries pl with
  | [] => (None, pl)
  | e :: rest => (Some e, {| entries := rest; capacity := capacity pl |})
  end.

End Playlist.

(** ** [VoiceState] *)

Module VoiceState.

Record t := {
  current : option Entry.t;
  voice : option VoiceClient;
  play_next_song : bool;
  songs : Playlist.t;
  required_skips : Z;
  skip_votes : gset snowflake;
  volume : Z;
}.

(** [__init__]; the capacity of the fresh playlist is fixed by the absent
    [Playlist] class and is a parameter here. *)
Definition init (cap : nat) : t :=
  {| current := None; voice := None; play_next_song := false;
     songs := {| Playlist.entries := []; Playlist.capacity := cap |};
     required_skips := 0; skip_votes := ∅; volume := 50 |}.

Definition set_current (c : option Entry.t) (s : t) : t :=
  {| current := c; voice := voice s; play_next_song := play_next_song s;
     songs := songs s; required_skips := required_skips s;
     skip_votes := skip_votes s; volume := volume s |}.
Definition set_voice (v : option VoiceClient) (s : t) : t :=
  {| current := current s; voice := v; play_next_song := play_next_song s;
     songs := songs s; required_skips := required_skips s;
     skip_votes := skip_votes s; volume := volume s |}.
Definition set_play_next_song (b : bool) (s : t) : t :=
  {| current := current s; voice := voice s; play_next_song := b;
     songs := songs s; required_skips := required_skips s;
     skip_votes := skip_votes s; volume := volume s |}.
Definition set_songs (q : Playlist.t) (s : t) : t :=
  {| current := current s; voice := voice s; play_next_song := play_next_song s;
     songs := q; required_skips := required_skips s;
     skip_votes := skip_votes s; volume := volume s |}.
Definition set_required_skips (n : Z) (s : t) : t :=
  {| current := current s; voice := voice s; play_next_song := play_next_song s;
     songs := songs s; required_skips := n;
     skip_votes := skip_votes s; volume := volume s |}.
Definition set_skip_votes (v : gset snowflake) (s : t) : t :=
  {| current := current s; voice := voice s; play_next_song := play_next_song s;
     songs := songs s; required_skips := required_skips s;
     skip_votes := v; volume := volume s |}.
Definition set_volume (n : Z) (s : t) : t :=
  {| current := current s; voice := voice s; play_next_song := play_next_song s;
     songs := songs s; required_skips := required_skips s;
     skip_votes := skip_votes s; volume := n |}.

(** [self.current.player.<method>()]: update the player of the current entry. *)
Definition update_player (f : Player.t -> Player.t) (s : t) : t :=
  set_current
    (option_map (fun e => Entry.set_player (option_map f (Entry.player e)) e) (current s)) s.

(** [is_playing].  The [AttributeError] branch is the one taken when the
    entry's player is still [None]. *)
Definition is_playing (s : t) : bool :=
  match voice s, current s with
  | None, _ | _, None => false
  | Some _, Some e =>
      match Entry.player e with
      | Some p => negb (Player.is_done p)
      | None => false
      end
  end.

(** [skip]: clear the votes, then stop the player if one is running. *)
Definition skip (s : t) : t :=
  let s1 := set_skip_votes ∅ s in
  if is_playing s1 then update_player Player.stop s1 else s1.

End VoiceState.

(** ** What a command does to the outside world *)

(** The texts the cog sends, one constructor per literal of the source. *)
Inductive Reply :=
| NotPlayingAnything            (* 'Not playing anything.' *)
| NotPlayingMusic               (* 'Not playing any music right now...' *)
| ProgressReport (progress length : Z * Z)
| NotAVoiceChannel              (* 'This is not a voice channel...' *)
| FailedToConnect               (* 'I failed to connect! ...' *)
| ReadyToPlay (ch : snowflake)  (* 'Ready to play audio in ' + name *)
| NotInVoiceChannel             (* 'You are not in a voice channel.' *)
| SoundcloudUnsupported         (* 'Soundcloud has changed the way ...' *)
| QueueFull                     (* 'The queue is currently full! ...' *)
| NotInMyChannel                (* 'You are not currently in the channel; ...' *)
| NoResults (song : string)     (* 'No results found for {}!' *)
| ErrorText (error : string)    (* the upstream error text itself *)
| CouldNotDownload              (* 'Sorry but I couldn't download that! ...' *)
| Enqueued (e : Entry.t)        (* 'Enqueued ' + str(_entry) *)
| CurrentVolume (v : Z)         (* 'Current volume is {}' *)
| MaxVolume                     (* 'Sorry but the max volume is 200' *)
| VolumeSet (v : Q)             (* 'Set the volume to {:.0%}' *)
| NothingInQueue                (* 'Nothing currently in the queue' *)
| YouAreNext                    (* 'You are next in the queue!' *)
| NotInQueue                    (* 'You are not in the queue!' *)
| EtaReply (eta : Z * Z)        (* 'ETA till your next play is: {}m {}s' *)
| QueueListing (q : list Entry.t) (* 'Current songs in the queue:...' *)
| RequesterSkip                 (* 'Requester requested skipping song...' *)
| SkipPassed                    (* 'Skip vote passed, skipping song...' *)
| SkipAdded (total required : Z) (* 'Skip vote added, currently at [{}/{}]' *)
| AlreadyVoted                  (* 'You have already voted to skip this song.' *)
| SongSkipped                   (* 'Song has just been skipped.' *)
| NowPlaying (e : Entry.t) (skips required : Z). (* 'Now playing {} [skips: {}/{}]' *)

Inductive Exn :=
| AttributeError
| IndexError
| UnboundLocalError
| OverflowError
| ExtractionError (text : string).

(** The observable trace of a command: messages sent, calls made to the
    resolver, and an exception that escapes the command. *)
Inductive Event :=
| Say (r : Reply)
| AddEntry (song : string)
| ExtractInfo (song : string)
| Disconnect
| Raise (e : Exn).

Definition is_resolution (ev : Event) : bool :=
  match ev with
  | AddEntry _ | ExtractInfo _ => true
  | _ => false
  end.

(** What [Playlist.add_entry] does with a query. *)
Inductive AddResult :=
| Added (e : Entry.t)
| WrongEntryType
| AddFails (text : string).     (* raises ExtractionError *)

(** What evaluating [info.get('entries', [])[0]['webpage_url']] does: it
    yields the first result's link, or the index raises on an empty result
    list.  A lookup in a dictionary and a list raises no extraction error. *)
Inductive Lookup :=
| Url (u : string)
| LookupIndexError.

(** What [downloader.extract_info] does with a query. *)
Inductive SearchResult :=
| Info (first : Lookup)
| SearchFails (text : string).  (* raises ExtractionError *)

(** The collaborators a command talks to. *)
Record Env := {
  voice_client_in : option VoiceClient;
  join_voice_channel : snowflake -> option VoiceClient; (* [None]: timed out *)
  me_voice_channel : option snowflake;
  add_entry : string -> AddResult;
  extract_info : string -> SearchResult;
  ready_forbidden : bool; (* sending the ready message raises [Forbidden] *)
}.

(** ** The [Music] cog *)

Module Music.

(** [get_voice_state]: look the guild up, creating its state when absent. *)
Definition get_voice_state (cap : nat) (voice_states : gmap snowflake VoiceState.t)
    (server : snowflake) : VoiceState.t * gmap snowflake VoiceState.t :=
  match voice_states !! server with
  | Some state => (state, voice_states)
  | None =>
      let state := VoiceState.init cap in
      (state, <[server := state]> voice_states)
  end.

(** [create_voice_client]: what was done to the connections, and the new
    state; [None] stands for the connection error raised by
    [join_voice_channel]. *)
Definition create_voice_client (env : Env) (state : VoiceState.t) (ch : snowflake)
    : list Event * option VoiceState.t :=
  let join :=
    option_map (fun vc => VoiceState.set_voice (Some vc) state)
      (join_voice_channel env ch) in
  match voice_client_in env with
  | None => ([], join)
  | Some v =>
      if bool_decide (channel_id (channel v) = ch)
      then ([], Some (VoiceState.set_voice (Some v) state))
      else ([Disconnect], join)
  end.

(** [remove_voice_client]: disconnect whatever is connected. *)
Definition remove_voice_client (env : Env) (state : VoiceState.t) : list Event :=
  (match voice_client_in env with Some _ => [Disconnect] | None => [] end)
  ++ (match VoiceState.voice state with Some _ => [Disconnect] | None => [] end).

(** [on_voice_state_update] from line 171 on, on the state that
    [get_voice_state] returns at line 170; [gateway] below is the handler
    with that lookup. *)
Definition on_voice_state_update (state : VoiceState.t) (before after : Member)
    : VoiceState.t :=
  match VoiceState.voice state with
  | None => state
  | Some v =>
      let bot_channel := channel v in
      if Channel_neb bot_channel (voice_channel before)
         && Channel_neb bot_channel (voice_channel after)
      then state
      else
        let num_members := Z.of_nat (List.length (voice_members bot_channel)) in
        VoiceState.set_required_skips
          (Py.ceil (inject_Z (num_members + 1) / 3)) state
  end.

(** Python truthiness of an optional number. *)
Definition truthy (x : option Z) : bool :=
  match x with
  | Some n => negb (n =? 0)
  | None => false
  end.

(** [progress]. *)
Definition progress (state : VoiceState.t) : list Event :=
  if negb (VoiceState.is_playing state) then [Say NotPlayingAnything]
  else
    match VoiceState.current state with
    | None => [Raise AttributeError]
    | Some cur =>
        let progress := Entry.progress cur in
        let length := Entry.length cur in
        if negb (truthy progress) || negb (truthy length)
        then [Say NotPlayingAnything]
        else
          [Say (ProgressReport (Py.divmod (default 0 progress) 60)
                               (Py.divmod (default 0 length) 60))]
    end.

(** [summon]: the new state, what was sent, and the success flag.  The
    ready message is sent under [except discord.Forbidden: pass]: when
    sending it is forbidden nothing is said and the summon still succeeds. *)
Definition summon (env : Env) (state : VoiceState.t) (author : Member)
    : VoiceState.t * list Event * bool :=
  match voice_channel author with
  | None => (state, [Say NotInVoiceChannel], false)
  | Some summoned_channel =>
      match create_voice_client env state summoned_channel with
      | (evs, None) =>
          (state, evs ++ Say FailedToConnect :: remove_voice_client env state, false)
      | (evs, Some state') =>
          (state',
           evs ++ (if ready_forbidden env then []
                   else [Say (ReadyToPlay summoned_channel)]),
           true)
      end
  end.

(** Lines 300 and 303, 315 and 318: the second paragraph of the error
    text without its first word; [None] when there is no second paragraph
    (the index raises). *)
Definition upstream_error (text : string) : option string :=
  match Py.split (String "010" (String "010" EmptyString)) text !! 1%nat with
  | Some error => Some (Py.join " " (drop 1 (Py.words error)))
  | None => None
  end.

(** Lines 320 and 321. *)
Definition limit_length (error : string) : string :=
  if (2000 <=? String.length error)%nat
  then Py.take 1996 error +:+ "..."
  else error.

(** The handler of lines 298 to 305.  It guards the lookup of line 294
    alone, which raises no extraction error, so [play] never enters it. *)
Definition search_error_handler (text : string) : list Event :=
  match upstream_error text with
  | None => [Raise IndexError]
  | Some error => [Say (ErrorText error)]
  end.

(** The handler of lines 313 to 323. *)
Definition enqueue_error_handler (text : string) : list Event :=
  match upstream_error text with
  | None => [Raise IndexError]
  | Some error => [Say (ErrorText (limit_length error))]
  end.

(** Lines 288 to 324 of [play]: resolve the query and enqueue the entry.
    An exception raised inside an [except] block is not caught by the
    sibling handlers of the same [try], so it escapes the command. *)
Definition enqueue (env : Env) (state : VoiceState.t) (song : string)
    : VoiceState.t * list Event :=
  let added e :=
    VoiceState.set_songs (Playlist.append e (VoiceState.songs state)) state in
  match add_entry env song with
  | Added e => (added e, [AddEntry song; Say (Enqueued e)])
  | AddFails text => (state, AddEntry song :: enqueue_error_handler text)
  | WrongEntryType =>
      match extract_info env song with
      | SearchFails text =>
          (state, [AddEntry song; ExtractInfo song; Raise (ExtractionError text)])
      | Info LookupIndexError =>
          (state, [AddEntry song; ExtractInfo song; Say (NoResults song)])
      | Info (Url song') =>
          match add_entry env song' with
          | Added e =>
              (added e, [AddEntry song; ExtractInfo song; AddEntry song';
                         Say (Enqueued e)])
          | WrongEntryType =>
              (state, [AddEntry song; ExtractInfo song; AddEntry song';
                       Say CouldNotDownload; Raise UnboundLocalError])
          | AddFails text =>
              (state, [AddEntry song; ExtractInfo song; AddEntry song';
                       Raise (ExtractionError text)])
          end
      end
  end.

(** [play], on the state [get_voice_state] returns; [None] for the state
    means the command returned before asking for it. *)
Definition play (env : Env) (state : VoiceState.t) (author : Member) (song : string)
    : option VoiceState.t * list Event :=
  if Py.contains "soundcloud.com" song then (None, [Say SoundcloudUnsupported])
  else
    let '(state, evs, success) :=
      match VoiceState.voice state with
      | None => summon env state author
      | Some _ => (state, [], true)
      end in
    if negb success then (Some state, evs)
    else if Playlist.full (VoiceState.songs state) then (Some state, evs ++ [Say QueueFull])
    else
      let author_channel := voice_channel author in
      let my_channel := me_voice_channel env in
      if negb (bool_decide (my_channel = author_channel))
      then (Some state, evs ++ [Say NotInMyChannel])
      else
        let song := Py.strip_brackets song in
        let '(state, evs') := enqueue env state song in
        (Some state, evs ++ evs').

(** [volume].  The reply shows the gain the player kept. *)
Definition volume (state : VoiceState.t) (value : option Z) : VoiceState.t * list Event :=
  match value with
  | None => (state, [Say (CurrentVolume (VoiceState.volume state))])
  | Some value =>
      if 200 <? value then (state, [Say MaxVolume])
      else
        let state := VoiceState.set_volume value state in
        if VoiceState.is_playing state
        then
          match Py.truediv value 100 with
          | None => (state, [Raise OverflowError])
          | Some v =>
              (VoiceState.update_player (Player.set_volume v) state,
               [Say (VolumeSet (Py.max0 v))])
          end
        else (state, [])
  end.

Definition pause (state : VoiceState.t) : VoiceState.t :=
  if VoiceState.is_playing state
  then VoiceState.update_player Player.pause state else state.

Definition resume (state : VoiceState.t) : VoiceState.t :=
  if VoiceState.is_playing state
  then VoiceState.update_player Player.resume state else state.

(** The loop of [eta]: the running total and whether the author was found. *)
Fixpoint eta_loop (author : Member) (queue : list Entry.t) (count : Z) : Z * bool :=
  match queue with
  | [] => (count, false)
  | song :: rest =>
      if Member_eqb (Entry.requester song) author then (count, true)
      else eta_loop author rest (count + Entry.duration song)
  end.

(** [eta]. *)
Definition eta (state : VoiceState.t) (author : Member) : list Event :=
  if negb (VoiceState.is_playing state) then [Say NotPlayingMusic]
  else
    let queue := Playlist.entries (VoiceState.songs state) in
    if (List.length queue =? 0)%nat then [Say NothingInQueue]
    else
      match VoiceState.current state with
      | None => [Raise AttributeError]
      | Some cur =>
          let '(count, found) := eta_loop author queue (Entry.remaining cur) in
          if count =? Entry.duration cur then [Say YouAreNext]
          else if negb found then [Say NotInQueue]
          else [Say (EtaReply (Py.divmod count 60))]
      end.

(** [queue]. *)
Definition queue (state : VoiceState.t) : list Event :=
  if negb (VoiceState.is_playing state) then [Say NotPlayingMusic]
  else [Say (QueueListing (Playlist.entries (VoiceState.songs state)))].

(** The part of [skip] that runs before the command awaits its reply:
    the state, the reply, and whether [state.skip()] follows the reply. *)
Definition skip_vote (state : VoiceState.t) (voter : Member)
    : VoiceState.t * list Event * bool :=
  if negb (VoiceState.is_playing state) then (state, [Say NotPlayingMusic], false)
  else
    match VoiceState.current state with
    | None => (state, [Raise AttributeError], false)
    | Some cur =>
        if Member_eqb voter (Entry.requester cur)
        then (state, [Say RequesterSkip], true)
        else if negb (bool_decide (member_id voter ∈ VoiceState.skip_votes state))
        then
          let state :=
            VoiceState.set_skip_votes
              ({[member_id voter]} ∪ VoiceState.skip_votes state) state in
          let total_votes := Z.of_nat (size (VoiceState.skip_votes state)) in
          if VoiceState.required_skips state <=? total_votes
          then (state, [Say SkipPassed], true)
          else (state,
                [Say (SkipAdded total_votes (VoiceState.required_skips state))],
                false)
        else (state, [Say AlreadyVoted], false)
    end.

(** [skip]. *)
Definition skip (state : VoiceState.t) (voter : Member) : VoiceState.t * list Event :=
  let '(state, evs, skipping) := skip_vote state voter in
  (if skipping then VoiceState.skip state else state, evs).

(** [modskip]. *)
Definition modskip (state : VoiceState.t) : VoiceState.t * list Event :=
  if negb (VoiceState.is_playing state) then (state, [Say NotPlayingMusic])
  else (VoiceState.skip state, [Say SongSkipped]).

(** [playing]. *)
Definition playing (state : VoiceState.t) : list Event :=
  if negb (VoiceState.is_playing state) then [Say NotPlayingAnything]
  else
    match VoiceState.current state with
    | None => [Raise AttributeError]
    | Some cur =>
        let skip_count := Z.of_nat (size (VoiceState.skip_votes state)) in
        [Say (NowPlaying cur skip_count (VoiceState.required_skips state))]
    end.

(** [stop], on the cog's dictionary: the guild's state is looked up (and
    created when absent), its player is stopped if one is running, the
    worker task is cancelled and the state is deleted from the dictionary;
    the closing [disconnect] is attempted last and fails silently, under
    the bare [except], when the state has no voice client.  The state as
    it is dropped is returned beside the dictionary. *)
Definition stop (cap : nat) (voice_states : gmap snowflake VoiceState.t)
    (server : snowflake)
    : gmap snowflake VoiceState.t * VoiceState.t * list Event :=
  let '(state, created) := get_voice_state cap voice_states server in
  let state :=
    if VoiceState.is_playing state
    then VoiceState.update_player Player.stop state else state in
  (delete server created, state,
   match VoiceState.voice state with
   | Some _ => [Disconnect]
   | None => []
   end).

End Music.

(** ** The audio worker of a guild *)

Module Worker.

(** Where [audio_player_task] is suspended. *)
Inductive Pc :=
| LoopTop     (* about to clear the event and the votes *)
| Dequeue     (* awaiting [songs.get_next_entry()] *)
| Staging     (* sleeping until the entry has a filename *)
| Waiting     (* awaiting [play_next_song.wait()] *)
| Crashed.    (* the task died on an exception *)

(** A guild's state together with its worker task and the player thread:
    [thread_alive] holds from the start of a player until its [after]
    callback has run. *)
Record t := {
  state : VoiceState.t;
  pc : Pc;
  thread_alive : bool;
}.

Definition init (cap : nat) : t :=
  {| state := VoiceState.init cap; pc := LoopTop; thread_alive := false |}.

Definition with_state (st : VoiceState.t) (w : t) : t :=
  {| state := st; pc := pc w; thread_alive := thread_alive w |}.

(** Python truthiness of the [filename] attribute. *)
Definition has_filename (e : Entry.t) : bool :=
  match Entry.filename e with
  | Some f => negb (String.eqb f EmptyString)
  | None => false
  end.

(** One run of [audio_player_task] from a suspension point to the next.
    The gain is set after the player has been started: when the division
    of line 95 overflows the task dies with the player running. *)
Definition audio_player_task (w : t) : t :=
  let st := state w in
  match pc w with
  | LoopTop =>
      let st := VoiceState.set_play_next_song false st in
      let st := VoiceState.set_skip_votes ∅ st in
      {| state := st; pc := Dequeue; thread_alive := thread_alive w |}
  | Dequeue =>
      let '(e, q) := Playlist.get_next_entry (VoiceState.songs st) in
      let st := VoiceState.set_current e (VoiceState.set_songs q st) in
      {| state := st;
         pc := match e with Some _ => Staging | None => Dequeue end;
         thread_alive := thread_alive w |}
  | Staging =>
      match VoiceState.current st with
      | None => {| state := st; pc := Crashed; thread_alive := thread_alive w |}
      | Some e =>
          if has_filename e
          then
            match VoiceState.voice st with
            | None => {| state := st; pc := Crashed; thread_alive := thread_alive w |}
            | Some _ =>
                let playing p :=
                  VoiceState.set_current (Some (Entry.set_player (Some p) e)) st in
                match Py.truediv (VoiceState.volume st) 100 with
                | None =>
                    {| state := playing Player.started;
                       pc := Crashed; thread_alive := true |}
                | Some v =>
                    {| state := playing (Player.set_volume v Player.started);
                       pc := Waiting; thread_alive := true |}
                end
            end
          else w
      end
  | Waiting =>
      if VoiceState.play_next_song st
      then {| state := st; pc := LoopTop; thread_alive := thread_alive w |}
      else w
  | Crashed => w
  end.

(** [toggle_next], the player's [after] callback: the staged file is
    deleted first and the event is set after that.  [removed] tells whether
    [os.remove] succeeded; when it raises, the callback ends there and the
    event is not set. *)
Definition toggle_next (removed : bool) (w : t) : t :=
  {| state :=
       if removed then VoiceState.set_play_next_song true (state w) else state w;
     pc := pc w; thread_alive := false |}.

(** Whether the player of the current entry has reached its end. *)
Definition player_done (st : VoiceState.t) : bool :=
  match VoiceState.current st with
  | Some e => match Entry.player e with Some p => Player.is_done p | None => false end
  | None => false
  end.

(** Everything that can happen to a guild between two suspension points:
    the worker runs, the player thread ends a track and calls back, the
    downloader stages the file, and commands and gateway events arrive. *)
Inductive step : t -> t -> Prop :=
| step_worker w :
    step w (audio_player_task w)
| step_track_ends w :
    thread_alive w = true ->
    step w (with_state (VoiceState.update_player Player.stop (state w)) w)
| step_after w removed :
    thread_alive w = true -> player_done (state w) = true ->
    step w (toggle_next removed w)
| step_staged w f :
    pc w = Staging ->
    step w (with_state
              (VoiceState.set_current
                 (option_map (Entry.set_filename (Some f)) (VoiceState.current (state w)))
                 (state w)) w)
| step_skip_vote w voter :
    step w (with_state (Music.skip_vote (state w) voter).1.1 w)
| step_skip w :
    step w (with_state (VoiceState.skip (state w)) w)
| step_membership w before after :
    step w (with_state (Music.on_voice_state_update (state w) before after) w)
| step_enqueue w e :
    Entry.player e = None ->
    step w (with_state
              (VoiceState.set_songs (Playlist.append e (VoiceState.songs (state w)))
                 (state w)) w)
| step_joined w vc :
    step w (with_state (VoiceState.set_voice (Some vc) (state w)) w)
| step_volume w value :
    step w (with_state (Music.volume (state w) value).1 w)
| step_pause w :
    step w (with_state (Music.pause (state w)) w)
| step_resume w :
    step w (with_state (Music.resume (state w)) w).

(** The player of the current entry, if any, is not running. *)
Definition idle (st : VoiceState.t) : Prop :=
  match VoiceState.current st with
  | Some e =>
      match Entry.player e with
      | Some p => Player.done p = true
      | None => True
      end
  | None => True
  end.

(** What holds of every reachable configuration, by suspension point. *)
Definition inv (w : t) : Prop :=
  Forall (fun e => Entry.player e = None) (Playlist.entries (VoiceState.songs (state w)))
  /\ match pc w with
     | LoopTop => idle (state w) /\ thread_alive w = false
     | Dequeue =>
         VoiceState.skip_votes (state w) = ∅ /\ idle (state w)
         /\ thread_alive w = false /\ VoiceState.play_next_song (state w) = false
     | Staging =>
         VoiceState.skip_votes (state w) = ∅
         /\ (exists e, VoiceState.current (state w) = Some e /\ Entry.player e = None)
         /\ thread_alive w = false /\ VoiceState.play_next_song (state w) = false
     | Waiting =>
         (thread_alive w = false -> idle (state w))
         /\ (VoiceState.play_next_song (state w) = true -> thread_alive w = false)
     | Crashed => True
     end.

End Worker.

(** ** Dispatch through the cog's dictionary of guild states *)

Inductive Command :=
| Play (author : Member) (song : string)
| Volume (value : option Z)
| Pause
| Resume
| Eta (author : Member)
| Queue
| Skip (voter : Member)
| Modskip
| Playing
| Progress.

(** A command invoked in guild [server]: every command first asks
    [get_voice_state] for the guild's state, except that [play] answers a
    soundcloud query before doing so. *)
Definition invoke (cap : nat) (env : Env) (voice_states : gmap snowflake VoiceState.t)
    (server : snowflake) (cmd : Command) : gmap snowflake VoiceState.t * list Event :=
  let '(state, created) := Music.get_voice_state cap voice_states server in
  let store st := <[server := st]> created in
  match cmd with
  | Play author song =>
      match Music.play env state author song with
      | (None, evs) => (voice_states, evs)
      | (Some st, evs) => (store st, evs)
      end
  | Volume value => let '(st, evs) := Music.volume state value in (store st, evs)
  | Pause => (store (Music.pause state), [])
  | Resume => (store (Music.resume state), [])
  | Eta author => (created, Music.eta state author)
  | Queue => (created, Music.queue state)
  | Skip voter => let '(st, evs) := Music.skip state voter in (store st, evs)
  | Modskip => let '(st, evs) := Music.modskip state in (store st, evs)
  | Playing => (created, Music.playing state)
  | Progress => (created, Music.progress state)
  end.

(** A session: commands arriving one after the other, each in some guild. *)
Fixpoint session (cap : nat) (env : Env) (voice_states : gmap snowflake VoiceState.t)
    (cmds : list (snowflake * Command)) : gmap snowflake VoiceState.t :=
  match cmds with
  | [] => voice_states
  | (server, cmd) :: rest =>
      session cap env (invoke cap env voice_states server cmd).1 rest
  end.

(** A voice-state update delivered for guild [server]: the handler first
    asks [get_voice_state] for the guild's state (line 170), which files a
    fresh one for a guild that had none. *)
Definition gateway (cap : nat) (voice_states : gmap snowflake VoiceState.t)
    (server : snowflake) (before after : Member) : gmap snowflake VoiceState.t :=
  let '(state, created) := Music.get_voice_state cap voice_states server in
  <[server := Music.on_voice_state_update state before after]> created.

(** Whether a command asks for a negative volume. *)
Definition negative_volume (c : snowflake * Command) : bool :=
  match c.2 with
  | Volume (Some value) => value <? 0
  | _ => false
  end.

(** ** The estimate as the specification words it *)

Inductive EtaResult :=
| Duration (seconds : Z)
| NotQueued
| NextUp.

(** The queued entries strictly before the first one requested by [userId]. *)
Fixpoint before_first (userId : Member) (queue : list Entry.t) : list Entry.t :=
  match queue with
  | [] => []
  | e :: rest =>
      if Member_eqb (Entry.requester e) userId then []
      else e :: before_first userId rest
  end.

Definition queued (userId : Member) (queue : list Entry.t) : bool :=
  existsb (fun e => Member_eqb (Entry.requester e) userId) queue.

Definition total_duration (l : list Entry.t) : Z :=
  foldr (fun e acc => Entry.duration e + acc) 0 l.

Definition computeEta (remaining : Z) (queue : list Entry.t) (userId : Member) : EtaResult :=
  if negb (queued userId queue) then NotQueued
  else
    let sum := remaining + total_duration (before_first userId queue) in
    if sum =? remaining then NextUp else Duration sum.

(** The message that announces an estimate. *)
Definition announce (r : EtaResult) : Reply :=
  match r with
  | Duration seconds => EtaReply (Py.divmod seconds 60)
  | NotQueued => NotInQueue
  | NextUp => YouAreNext
  end.

(** ** The statistics cog *)

Module StatsUpdate.

(** What the cog reads of the bot: its guilds with their members, and the
    bot's own user id. *)
Record Server := {
  members : list snowflake;
}.

Record Bot := {
  servers : list Server;
  user_id : snowflake;
}.

(** [bot.get_all_members()]: the members of every guild, guild by guild. *)
Definition get_all_members (bot : Bot) : list snowflake :=
  concat (map members (servers bot)).

(** The settings the cog reads from [utils.config], which is not among the
    sources; [shard_id] is the shard's number as [format] renders it. *)
Record Config := {
  carbon_key : string;
  discord_bots_key : string;
  shard_id : string;
}.

Definition discord_bots_url : string := "https://bots.discord.pw/api".
Definition carbonitex_url : string :=
  "https://www.carbonitex.net/discord/data/botdata.php".

(** The two requests [update] posts. *)
Inductive Request :=
| CarbonPost (url key : string) (servercount : nat)
| BotsPost (url authorization content_type : string) (server_count : nat).

(** [update]. *)
Definition update (cfg : Config) (bot : Bot) : list Request :=
  [ CarbonPost carbonitex_url (carbon_key cfg) (List.length (servers bot));
    BotsPost (discord_bots_url +:+ "/bots/" +:+ user_id bot +:+ "/stats")
      (discord_bots_key cfg) "application/json" (List.length (servers bot)) ].

(** ['shard_{}'.format(config.shard_id)]. *)
Definition shard_key (cfg : Config) : string := "shard_" +:+ shard_id cfg.

(** [on_server_join], on the content [get_content('bot_data')] returns: the
    requests posted, and the content as the handler leaves it, or [None]
    when the shard has no entry and the item assignment raises. *)
Definition on_server_join (cfg : Config) (bot : Bot)
    (data : gmap string (gmap string Z))
    : list Request * option (gmap string (gmap string Z)) :=
  let posted := update cfg bot in
  match data !! shard_key cfg with
  | None => (posted, None)
  | Some shard_data =>
      let shard_data :=
        <["server_count" := Z.of_nat (List.length (servers bot))]> shard_data in
      let shard_data :=
        <["member_count" := Z.of_nat (List.length (get_all_members bot))]> shard_data in
      (posted, Some (<[shard_key cfg := shard_data]> data))
  end.

(** [on_server_leave]. *)
Definition on_server_leave (cfg : Config) (bot : Bot)
    (data : gmap string (gmap string Z))
    : list Request * option (gmap string (gmap string Z)) :=
  let posted := update cfg bot in
  match data !! shard_key cfg with
  | None => (posted, None)
  | Some shard_data =>
      let shard_data :=
        <["server_count" := Z.of_nat (List.length (servers bot))]> shard_data in
      let shard_data :=
        <["member_count" := Z.of_nat (List.length (get_all_members bot))]> shard_data in
      (posted, Some (<[shard_key cfg := shard_data]> data))
  end.

(** [on_ready]. *)
Definition on_ready (cfg : Config) (bot : Bot)
    (data : gmap string (gmap string Z))
    : list Request * option (gmap string (gmap string Z)) :=
  let posted := update cfg bot in
  match data !! shard_key cfg with
  | None => (posted, None)
  | Some shard_data =>
      let shard_data :=
        <["server_count" := Z.of_nat (List.length (servers bot))]> shard_data in
      let shard_data :=
        <["member_count" := Z.of_nat (List.length (get_all_members bot))]> shard_data in
      (posted, Some (<[shard_key cfg := shard_data]> data))
  end.

End StatsUpdate.

(** ** Observations used in the statements *)

Definition is_say (ev : Event) : bool :=
  match ev with
  | Say _ => true
  | _ => false
  end.

(** The characters [play] removes from a query. *)
Definition is_bracket (c : ascii) : bool :=
  (Ascii.eqb c "<" || Ascii.eqb c ">" || Ascii.eqb c "[" || Ascii.eqb c "]")%char.

Fixpoint string_forallb (f : ascii -> bool) (s : string) : bool :=
  match s with
  | EmptyString => true
  | String c rest => f c && string_forallb f rest
  end.

(** The separator of paragraphs: two line feeds. *)
Definition blank_line : string := String "010" (String "010" EmptyString).

(** The gain of the player of the current entry. *)
Definition current_gain (s : VoiceState.t) : option Q :=
  match VoiceState.current s with
  | Some e => option_map Player.volume (Entry.player e)
  | None => None
  end.

(** Whether the player of the current entry is paused. *)
Definition current_paused (s : VoiceState.t) : option bool :=
  match VoiceState.current s with
  | Some e => option_map Player.paused (Entry.player e)
  | None => None
  end.

(** The worker holds an entry whose file has not been staged. *)
Definition unstaged (w : Worker.t) : Prop :=
  Worker.pc w = Worker.Staging
  /\ exists e, VoiceState.current (Worker.state w) = Some e
               /\ Worker.has_filename e = false
               /\ Entry.player e = None.

(** A step that does not stage the file of the current entry. *)
Definition step_without_staging (w w' : Worker.t) : Prop :=
  Worker.step w w'
  /\ forall e e', VoiceState.current (Worker.state w) = Some e ->
                  VoiceState.current (Worker.state w') = Some e' ->
                  Worker.has_filename e = false -> Worker.has_filename e' = false.

(** The worker is suspended on the event, which is not set, and no player
    thread is left to set it. *)
Definition stalled (w : Worker.t) : Prop :=
  Worker.pc w = Worker.Waiting
  /\ Worker.thread_alive w = false
  /\ VoiceState.play_next_song (Worker.state w) = false
  /\ Worker.idle (Worker.state w).

(** The requester of the current entry has no vote in the set. *)
Definition requester_abstains (s : VoiceState.t) : Prop :=
  forall cur, VoiceState.current s = Some cur ->
              member_id (Entry.requester cur) ∉ VoiceState.skip_votes s.

(** The guild count a request carries. *)
Definition posted_count (r : StatsUpdate.Request) : nat :=
  match r with
  | StatsUpdate.CarbonPost _ _ n => n
  | StatsUpdate.BotsPost _ _ _ n => n
  end.

(** ** Sample data *)

Definition alice : Member := {| member_id := "1001"; voice_channel := Some "77" |}.
Definition bob : Member := {| member_id := "1002"; voice_channel := Some "77" |}.
Definition carol : Member := {| member_id := "1003"; voice_channel := Some "77" |}.
Definition dave : Member := {| member_id := "1004"; voice_channel := None |}.

Definition lounge (members : list snowflake) : VoiceClient :=
  {| channel := {| channel_id := "77"; voice_members := members |} |}.

Definition track (who : Member) (seconds left : Z) (p : option Player.t) : Entry.t :=
  {| Entry.requester := who; Entry.duration := seconds; Entry.remaining := left;
     Entry.progress := Some (seconds - left); Entry.length := Some seconds;
     Entry.filename := Some "audio_tmp/track"; Entry.player := p |}.

(** A guild in which a track of [dave] is playing and the queue holds a
    40-second track of [alice] and a 20-second one of [bob]. *)
Definition playing_track (cur : Entry.t) (cap : nat) (votes : gset snowflake)
    (required : Z) : VoiceState.t :=
  {| VoiceState.current := Some cur;
     VoiceState.voice := Some (lounge ["1001"; "1002"]);
     VoiceState.play_next_song := false;
     VoiceState.songs :=
       {| Playlist.entries := [track alice 40 40 None; track bob 20 20 None];
          Playlist.capacity := cap |};
     VoiceState.required_skips := required;
     VoiceState.skip_votes := votes;
     VoiceState.volume := 50 |}.

(** [dave]'s track lasts 100 seconds and has 30 seconds left. *)
Definition party : nat -> gset snowflake -> Z -> VoiceState.t :=
  playing_track (track dave 100 30 (Some Player.started)).

(** [dave]'s track lasts 70 seconds and has 30 seconds left. *)
Definition short_party : nat -> gset snowflake -> Z -> VoiceState.t :=
  playing_track (track dave 70 30 (Some Player.started)).

(** Collaborators that connect to whatever channel is asked for. *)
Definition online : Env :=
  {| voice_client_in := None;
     join_voice_channel :=
       fun ch => Some {| channel := {| channel_id := ch; voice_members := [] |} |};
     me_voice_channel := Some "77";
     add_entry := fun _ => WrongEntryType;
     extract_info := fun _ => Info LookupIndexError;
     ready_forbidden := false |}.

(** Collaborators that never connect and resolve nothing. *)
Definition offline : Env :=
  {| voice_client_in := None;
     join_voice_channel := fun _ => None;
     me_voice_channel := Some "77";
     add_entry := fun _ => WrongEntryType;
     extract_info := fun _ => Info LookupIndexError;
     ready_forbidden := false |}.

(** An upstream error whose second paragraph is the word "ERROR:" followed
    by a word of 2001 characters. *)
Definition long_error : string :=
  "ERROR" +:+ String "010" (String "010" ("ERROR: " +:+ Py.replicate 2001 "a")).

(** Collaborators for which [add_entry] raises the extraction error [text]. *)
Definition failing_link (text : string) : Env :=
  {| voice_client_in := None;
     join_voice_channel := fun _ => None;
     me_voice_channel := Some "77"%string;
     add_entry := fun _ => AddFails text;
     extract_info := fun _ => Info LookupIndexError;
     ready_forbidden := false |}.

(** A guild that has joined a channel and queued one staged track, with
    its worker about to start the player. *)
Definition about_to_play : Worker.t :=
  let w1 := Worker.audio_player_task (Worker.init 10) in
  let w2 :=
    Worker.with_state
      (VoiceState.set_voice (Some (lounge ["1001"; "1002"])) (Worker.state w1)) w1 in
  let w3 :=
    Worker.with_state
      (VoiceState.set_songs
         (Playlist.append (track alice 40 40 None) (VoiceState.songs (Worker.state w2)))
         (Worker.state w2)) w2 in
  Worker.audio_player_task w3.

(** An upstream error whose second paragraph has a double space and a tab. *)
Definition noisy_error : string :=
  "E" +:+ blank_line +:+ "ERROR:  bad" +:+ String "009" "thing".

(** A worker that has dequeued a track of [alice] whose file is not there yet. *)
Definition waiting_for_file : Worker.t :=
  {| Worker.state :=
       VoiceState.set_current
         (Some (Entry.set_filename None (track alice 40 40 None)))
         (VoiceState.set_voice (Some (lounge ["1001"; "1002"])) (VoiceState.init 10));
     Worker.pc := Worker.Staging;
     Worker.thread_alive := false |}.

(** The guild of [about_to_play] once the worker has started the player. *)
Definition now_playing : Worker.t := Worker.audio_player_task about_to_play.

(** * Properties *)

(** ** Playing or not *)

Lemma is_playing_spec (s : VoiceState.t) :
  VoiceState.is_playing s = true <->
  exists v e p, VoiceState.voice s = Some v /\ VoiceState.current s = Some e
                /\ Entry.player e = Some p /\ Player.done p = false.
Proof.
  unfold VoiceState.is_playing, Player.is_done. split.
  - destruct (VoiceState.voice s) as [v|]; [|discriminate].
    destruct (VoiceState.current s) as [e|]; [|discriminate].
    destruct (Entry.player e) as [p|] eqn:Hp; [|discriminate].
    intros H. exists v, e, p. repeat split; try assumption.
    by apply negb_true_iff.
  - intros (v & e & p & -> & -> & -> & ->). reflexivity.
Qed.

Lemma not_playing_cases (s : VoiceState.t) :
  VoiceState.voice s = None \/ VoiceState.current s = None
  \/ (exists e, VoiceState.current s = Some e /\ Entry.player e = None) ->
  VoiceState.is_playing s = false.
Proof.
  unfold VoiceState.is_playing.
  intros [Hv | [Hc | (e & Hc & Hp)]].
  - by rewrite Hv.
  - rewrite Hc. by destruct (VoiceState.voice s).
  - rewrite Hc, Hp. by destruct (VoiceState.voice s).
Qed.

(** C9.  [is_playing] answers false when the guild has no voice
    connection, no current entry, or a current entry whose player is not
    yet set; in each of those states progress, eta, queue, skip, modskip
    and playing answer with their not-playing message and leave the state
    as it is, and pause and resume do nothing.  No command raises. *)
Theorem not_playing_is_safe (s : VoiceState.t) (who : Member) :
  VoiceState.voice s = None \/ VoiceState.current s = None
  \/ (exists e, VoiceState.current s = Some e /\ Entry.player e = None) ->
  VoiceState.is_playing s = false
  /\ Music.progress s = [Say NotPlayingAnything]
  /\ Music.eta s who = [Say NotPlayingMusic]
  /\ Music.queue s = [Say NotPlayingMusic]
  /\ Music.skip s who = (s, [Say NotPlayingMusic])
  /\ Music.modskip s = (s, [Say NotPlayingMusic])
  /\ Music.playing s = [Say NotPlayingAnything]
  /\ Music.pause s = s
  /\ Music.resume s = s.
Proof.
  intros H. apply not_playing_cases in H.
  unfold Music.progress, Music.eta, Music.queue, Music.skip, Music.skip_vote,
    Music.modskip, Music.playing, Music.pause, Music.resume.
  rewrite H. simpl. repeat split.
Qed.

Lemma not_playing_is_safe_witness :
  VoiceState.is_playing (VoiceState.init 10) = false
  /\ Music.progress (VoiceState.init 10) = [Say NotPlayingAnything]
  /\ Music.eta (VoiceState.init 10) alice = [Say NotPlayingMusic]
  /\ Music.queue (VoiceState.init 10) = [Say NotPlayingMusic]
  /\ Music.skip (VoiceState.init 10) alice = (VoiceState.init 10, [Say NotPlayingMusic])
  /\ Music.modskip (VoiceState.init 10) = (VoiceState.init 10, [Say NotPlayingMusic])
  /\ Music.playing (VoiceState.init 10) = [Say NotPlayingAnything]
  /\ Music.pause (VoiceState.init 10) = VoiceState.init 10
  /\ Music.resume (VoiceState.init 10) = VoiceState.init 10.
Proof.
  apply (not_playing_is_safe (VoiceState.init 10) alice).
  left. reflexivity.
Defined.

(** ** Skipping *)

Lemma skip_clears_votes (s : VoiceState.t) :
  VoiceState.skip_votes (VoiceState.skip s) = ∅.
Proof.
  unfold VoiceState.skip.
  destruct (VoiceState.is_playing _); reflexivity.
Qed.

Lemma is_playing_set_skip_votes (votes : gset snowflake) (s : VoiceState.t) :
  VoiceState.is_playing (VoiceState.set_skip_votes votes s) = VoiceState.is_playing s.
Proof. reflexivity. Qed.

Lemma skip_stops_player (s : VoiceState.t) :
  VoiceState.is_playing s = true -> Worker.player_done (VoiceState.skip s) = true.
Proof.
  intros H. unfold VoiceState.skip.
  rewrite is_playing_set_skip_votes, H.
  apply is_playing_spec in H as (v & e & p & _ & Hc & Hp & _).
  unfold Worker.player_done, VoiceState.update_player. simpl.
  rewrite Hc. simpl. rewrite Hp. reflexivity.
Qed.

Lemma skip_not_playing (s : VoiceState.t) :
  VoiceState.is_playing s = false ->
  VoiceState.skip s = VoiceState.set_skip_votes ∅ s.
Proof.
  intros H. unfold VoiceState.skip. by rewrite is_playing_set_skip_votes, H.
Qed.

(** C5.  When the caller of skip is the requester of the entry that is
    playing, the command announces the requester's skip and runs the
    state's skip at once: no vote is recorded for the caller, the vote set
    ends up empty and the player is stopped, whatever the vote set and the
    quota were. *)
Theorem requester_skips_at_once (s : VoiceState.t) (voter : Member) (cur : Entry.t) :
  VoiceState.is_playing s = true ->
  VoiceState.current s = Some cur ->
  Member_eqb voter (Entry.requester cur) = true ->
  Music.skip_vote s voter = (s, [Say RequesterSkip], true)
  /\ Music.skip s voter = (VoiceState.skip s, [Say RequesterSkip])
  /\ VoiceState.skip_votes (fst (Music.skip s voter)) = ∅
  /\ (member_id voter ∉ VoiceState.skip_votes (fst (Music.skip s voter)))
  /\ Worker.player_done (fst (Music.skip s voter)) = true.
Proof.
  intros Hplay Hcur Hreq.
  assert (Hvote : Music.skip_vote s voter = (s, [Say RequesterSkip], true)).
  { unfold Music.skip_vote. by rewrite Hplay, Hcur, Hreq. }
  assert (Hskip : Music.skip s voter = (VoiceState.skip s, [Say RequesterSkip])).
  { unfold Music.skip. by rewrite Hvote. }
  rewrite Hskip. simpl. rewrite skip_clears_votes.
  split; [done|]. split; [done|]. split; [done|].
  split; [set_solver | by apply skip_stops_player].
Qed.

Lemma requester_skips_at_once_witness :
  Music.skip_vote (party 10 {["1001"]} 5) dave
    = (party 10 {["1001"]} 5, [Say RequesterSkip], true)
  /\ Music.skip (party 10 {["1001"]} 5) dave
    = (VoiceState.skip (party 10 {["1001"]} 5), [Say RequesterSkip])
  /\ VoiceState.skip_votes (fst (Music.skip (party 10 {["1001"]} 5) dave)) = ∅
  /\ (member_id dave ∉ VoiceState.skip_votes (fst (Music.skip (party 10 {["1001"]} 5) dave)))
  /\ Worker.player_done (fst (Music.skip (party 10 {["1001"]} 5) dave)) = true.
Proof.
  apply (requester_skips_at_once (party 10 {["1001"]} 5) dave
           (track dave 100 30 (Some Player.started)));
    reflexivity.
Defined.

Lemma player_done_not_playing (s : VoiceState.t) :
  Worker.player_done s = true -> VoiceState.is_playing s = false.
Proof.
  unfold Worker.player_done, VoiceState.is_playing.
  destruct (VoiceState.voice s), (VoiceState.current s) as [e|]; try done.
  destruct (Entry.player e); [intros -> | ]; done.
Qed.

Lemma playing_not_done (s : VoiceState.t) :
  VoiceState.is_playing s = true -> Worker.player_done s = false.
Proof.
  intros (v & e & p & _ & He & Hp & Hd)%is_playing_spec.
  unfold Worker.player_done, Player.is_done. by rewrite He, Hp.
Qed.

(** C6.  A skip vote from someone other than the requester of the entry
    that is playing.  A voter whose id is already in the vote set is told
    so and nothing changes.  Otherwise the id is inserted, and the skip is
    executed exactly when the tally after the insertion reaches the quota:
    then the vote set is cleared, the player is stopped and nothing plays
    any more.  Else the tally is reported, the vote stays recorded in the
    set and the track keeps playing. *)
Theorem vote_counts_once (s : VoiceState.t) (voter : Member) (cur : Entry.t) :
  VoiceState.is_playing s = true ->
  VoiceState.current s = Some cur ->
  Member_eqb voter (Entry.requester cur) = false ->
  let votes := VoiceState.skip_votes s in
  let voted := VoiceState.set_skip_votes ({[member_id voter]} ∪ votes) s in
  let tally := Z.of_nat (S (size votes)) in
  let s' := fst (Music.skip s voter) in
  (member_id voter ∈ votes -> Music.skip s voter = (s, [Say AlreadyVoted]))
  /\ (member_id voter ∉ votes ->
      Z.of_nat (size (VoiceState.skip_votes voted)) = tally
      /\ (VoiceState.required_skips s <= tally ->
          Music.skip s voter = (VoiceState.skip voted, [Say SkipPassed])
          /\ VoiceState.skip_votes s' = ∅
          /\ Worker.player_done s' = true
          /\ VoiceState.is_playing s' = false)
      /\ (tally < VoiceState.required_skips s ->
          Music.skip s voter
            = (voted, [Say (SkipAdded tally (VoiceState.required_skips s))])
          /\ VoiceState.skip_votes s' = {[member_id voter]} ∪ votes
          /\ member_id voter ∈ VoiceState.skip_votes s'
          /\ Worker.player_done s' = false
          /\ VoiceState.is_playing s' = true)).
Proof.
  intros Hplay Hcur Hreq votes voted tally s'.
  unfold s', Music.skip, Music.skip_vote. rewrite Hplay, Hcur, Hreq. simpl.
  split.
  - intros Hin. by rewrite bool_decide_eq_true_2.
  - intros Hnot. rewrite bool_decide_eq_false_2 by done. simpl.
    assert (Hsize : Z.of_nat (size ({[member_id voter]} ∪ votes)) = tally).
    { unfold tally. f_equal.
      rewrite size_union by set_solver. by rewrite size_singleton. }
    fold votes. rewrite Hsize. split; [done|]. split; intros Hq.
    + rewrite (proj2 (Z.leb_le _ _) Hq). simpl. fold voted.
      assert (Hvoted : VoiceState.is_playing voted = true) by exact Hplay.
      split; [done|]. split; [apply skip_clears_votes|].
      split; [by apply skip_stops_player|].
      by apply player_done_not_playing, skip_stops_player.
    + rewrite (proj2 (Z.leb_gt _ _) Hq). simpl. fold voted.
      split; [done|]. split; [done|]. split; [set_solver|].
      split; [by apply playing_not_done|exact Hplay].
Qed.

Lemma vote_counts_once_witness :
  let s := party 10 {["1001"]} 3 in
  let votes := VoiceState.skip_votes s in
  let voted := VoiceState.set_skip_votes ({[member_id bob]} ∪ votes) s in
  let tally := Z.of_nat (S (size votes)) in
  let s' := fst (Music.skip s bob) in
  (member_id bob ∈ votes -> Music.skip s bob = (s, [Say AlreadyVoted]))
  /\ (member_id bob ∉ votes ->
      Z.of_nat (size (VoiceState.skip_votes voted)) = tally
      /\ (VoiceState.required_skips s <= tally ->
          Music.skip s bob = (VoiceState.skip voted, [Say SkipPassed])
          /\ VoiceState.skip_votes s' = ∅
          /\ Worker.player_done s' = true
          /\ VoiceState.is_playing s' = false)
      /\ (tally < VoiceState.required_skips s ->
          Music.skip s bob
            = (voted, [Say (SkipAdded tally (VoiceState.required_skips s))])
          /\ VoiceState.skip_votes s' = {[member_id bob]} ∪ votes
          /\ member_id bob ∈ VoiceState.skip_votes s'
          /\ Worker.player_done s' = false
          /\ VoiceState.is_playing s' = true)).
Proof.
  apply (vote_counts_once (party 10 {["1001"]} 3) bob
           (track dave 100 30 (Some Player.started)));
    reflexivity.
Defined.

(** A vote that reaches the quota, and one that does not, run by the
    command itself. *)
Example votes_at_work :
  let passed := fst (Music.skip (party 10 {["1001"]} 2) bob) in
  let recorded := fst (Music.skip (party 10 {["1001"]} 3) bob) in
  VoiceState.skip_votes passed = ∅
  /\ Worker.player_done passed = true
  /\ bool_decide (VoiceState.skip_votes recorded = {["1001"; "1002"]}) = true
  /\ Worker.player_done recorded = false.
Proof. vm_compute. repeat split. Qed.

(** ** The skip quota *)

Lemma ceil_third (n : Z) : Py.ceil (inject_Z n / 3) = (n + 2) / 3.
Proof.
  unfold Py.ceil, Qceiling, Qfloor, Qdiv, Qmult, Qinv, Qopp, inject_Z. simpl.
  rewrite Z.mul_1_r. Z.div_mod_to_equations. lia.
Qed.

(** C4.  When a member joins or leaves the channel the bot is connected
    to, leaving it with [memberCount] members, the quota becomes the
    ceiling of [(memberCount + 1) / 3], that is the least integer [r] with
    [memberCount + 1 <= 3 * r]: 1 for two members, 2 for five, 3 for eight. *)
Theorem quota_follows_membership
    (s : VoiceState.t) (v : VoiceClient) (before after : Member) (memberCount : nat) :
  VoiceState.voice s = Some v ->
  voice_channel before = Some (channel_id (channel v))
  \/ voice_channel after = Some (channel_id (channel v)) ->
  List.length (voice_members (channel v)) = memberCount ->
  let requiredVotes :=
    VoiceState.required_skips (Music.on_voice_state_update s before after) in
  requiredVotes = Py.ceil (inject_Z (Z.of_nat memberCount + 1) / 3)
  /\ 3 * (requiredVotes - 1) < Z.of_nat memberCount + 1 <= 3 * requiredVotes
  /\ (memberCount = 2%nat -> requiredVotes = 1)
  /\ (memberCount = 5%nat -> requiredVotes = 2)
  /\ (memberCount = 8%nat -> requiredVotes = 3).
Proof.
  intros Hv Hch Hlen. unfold Music.on_voice_state_update. rewrite Hv.
  assert (Hgate : Channel_neb (channel v) (voice_channel before)
                  && Channel_neb (channel v) (voice_channel after) = false).
  { unfold Channel_neb. destruct Hch as [-> | ->].
    - by rewrite bool_decide_eq_true_2.
    - rewrite (bool_decide_eq_true_2 (Some _ = Some _)) by done.
      apply andb_false_r. }
  rewrite Hgate, Hlen. simpl. rewrite ceil_third.
  split; [reflexivity|]. split.
  - Z.div_mod_to_equations. lia.
  - repeat split; intros ->; reflexivity.
Qed.

Lemma quota_follows_membership_witness :
  let s := VoiceState.set_voice (Some (lounge ["1001"; "1002"])) (VoiceState.init 10) in
  let requiredVotes :=
    VoiceState.required_skips (Music.on_voice_state_update s dave alice) in
  requiredVotes = Py.ceil (inject_Z (Z.of_nat 2 + 1) / 3)
  /\ 3 * (requiredVotes - 1) < Z.of_nat 2 + 1 <= 3 * requiredVotes
  /\ (2%nat = 2%nat -> requiredVotes = 1)
  /\ (2%nat = 5%nat -> requiredVotes = 2)
  /\ (2%nat = 8%nat -> requiredVotes = 3).
Proof.
  apply (quota_follows_membership
           (VoiceState.set_voice (Some (lounge ["1001"; "1002"])) (VoiceState.init 10))
           (lounge ["1001"; "1002"]) dave alice 2).
  - reflexivity.
  - right. reflexivity.
  - reflexivity.
Defined.

(** The three sample quotas, computed by the handler itself. *)
Example quota_samples :
  map (fun members =>
         VoiceState.required_skips
           (Music.on_voice_state_update
              (VoiceState.set_voice (Some (lounge members)) (VoiceState.init 10))
              dave alice))
      [ ["1"; "2"]; ["1"; "2"; "3"; "4"; "5"];
        ["1"; "2"; "3"; "4"; "5"; "6"; "7"; "8"] ]
  = [1; 2; 3].
Proof. reflexivity. Qed.

(** A change in some other channel leaves the quota alone, and so does
    any change while the bot is not connected. *)
Lemma quota_ignores_other_channels (s : VoiceState.t) (before after : Member) :
  match VoiceState.voice s with
  | None => True
  | Some v =>
      voice_channel before <> Some (channel_id (channel v))
      /\ voice_channel after <> Some (channel_id (channel v))
  end ->
  Music.on_voice_state_update s before after = s.
Proof.
  unfold Music.on_voice_state_update, Channel_neb.
  destruct (VoiceState.voice s) as [v|]; [|done].
  intros [Hb Ha]. by rewrite !bool_decide_eq_false_2.
Qed.

(** ** Volume *)

Lemma volume_update_player (f : Player.t -> Player.t) (s : VoiceState.t) :
  VoiceState.volume (VoiceState.update_player f s) = VoiceState.volume s.
Proof. reflexivity. Qed.

Lemma volume_skip (s : VoiceState.t) :
  VoiceState.volume (VoiceState.skip s) = VoiceState.volume s.
Proof. unfold VoiceState.skip. by destruct (VoiceState.is_playing _). Qed.

Lemma volume_rejected (s : VoiceState.t) (value : Z) :
  200 < value -> Music.volume s (Some value) = (s, [Say MaxVolume]).
Proof. intros H. unfold Music.volume. by rewrite (proj2 (Z.ltb_lt _ _) H). Qed.

Lemma volume_accepted (s : VoiceState.t) (value : Z) :
  value <= 200 -> VoiceState.volume (fst (Music.volume s (Some value))) = value.
Proof.
  intros H. unfold Music.volume. rewrite (proj2 (Z.ltb_ge _ _) H).
  destruct (VoiceState.is_playing _); [|done]. by destruct (Py.truediv _ _).
Qed.

Lemma volume_reported (s : VoiceState.t) :
  Music.volume s None = (s, [Say (CurrentVolume (VoiceState.volume s))]).
Proof. reflexivity. Qed.

(** [summon] changes nothing but the voice connection and calls no resolver. *)
Lemma summon_frame (env : Env) (s s' : VoiceState.t) (a : Member) evs ok :
  Music.summon env s a = (s', evs, ok) ->
  (s' = s \/ exists vc, s' = VoiceState.set_voice (Some vc) s)
  /\ forallb (fun ev => negb (is_resolution ev)) evs = true.
Proof.
  unfold Music.summon, Music.create_voice_client, Music.remove_voice_client.
  intros H. destruct (voice_channel a) as [ch|]; [|by simplify_eq; split; eauto].
  destruct (join_voice_channel env ch) eqn:Hj;
    repeat case_match; simplify_eq; simpl in *; simplify_eq;
    (split; [eauto | reflexivity]).
Qed.

Lemma volume_summon (env : Env) (s s' : VoiceState.t) (a : Member) evs ok :
  Music.summon env s a = (s', evs, ok) -> VoiceState.volume s' = VoiceState.volume s.
Proof.
  intros H. apply summon_frame in H as [[-> | [vc ->]] _]; reflexivity.
Qed.

Lemma volume_enqueue (env : Env) (s s' : VoiceState.t) (song : string) evs :
  Music.enqueue env s song = (s', evs) -> VoiceState.volume s' = VoiceState.volume s.
Proof.
  unfold Music.enqueue. intros H. repeat case_match; simplify_eq; reflexivity.
Qed.

Lemma volume_play (env : Env) (s s' : VoiceState.t) (a : Member) (song : string) evs :
  Music.play env s a song = (Some s', evs) -> VoiceState.volume s' = VoiceState.volume s.
Proof.
  unfold Music.play. intros H.
  destruct (Py.contains _ _); [discriminate|].
  destruct (VoiceState.voice s) eqn:Hv.
  - simpl in H. repeat case_match; simplify_eq; try reflexivity.
    by eapply volume_enqueue.
  - destruct (Music.summon env s a) as [[s1 evs1] ok] eqn:Hs.
    apply volume_summon in Hs. rewrite <- Hs.
    repeat case_match; simplify_eq; try reflexivity.
    by eapply volume_enqueue.
Qed.

(** What one command does to the stored volume of its guild. *)
Lemma invoke_volume (P : Z -> Prop) cap env
    (m : gmap snowflake VoiceState.t) (server : snowflake) (cmd : Command) :
  P 50 ->
  (forall value, cmd = Volume (Some value) -> value <= 200 -> P value) ->
  map_Forall (fun _ st => P (VoiceState.volume st)) m ->
  map_Forall (fun _ st => P (VoiceState.volume st)) (invoke cap env m server cmd).1.
Proof.
  intros Hinit Hcmd Hm. unfold invoke.
  destruct (Music.get_voice_state cap m server) as [state created] eqn:Hget.
  assert (Hstate : P (VoiceState.volume state)
                   /\ map_Forall (fun _ st => P (VoiceState.volume st)) created).
  { unfold Music.get_voice_state in Hget.
    destruct (m !! server) as [st|] eqn:Hl; simplify_eq.
    - split; [by eapply (Hm server)|done].
    - split; [done|]. by apply map_Forall_insert_2. }
  destruct Hstate as [Hstate Hcreated].
  assert (Hstore : forall st, VoiceState.volume st = VoiceState.volume state ->
            map_Forall (fun _ st => P (VoiceState.volume st)) (<[server:=st]> created)).
  { intros st Hst. apply map_Forall_insert_2; [by rewrite Hst|done]. }
  destruct cmd as [a song|[value|]| | |a| |voter| | |]; cbv beta iota.
  - destruct (Music.play env state a song) as [[st|] evs] eqn:Hp; simpl; [|done].
    apply Hstore. by eapply volume_play.
  - destruct (Music.volume state (Some value)) as [st evs] eqn:Hvol. simpl.
    destruct (Z_lt_le_dec 200 value) as [Hhi|Hlo].
    + rewrite volume_rejected in Hvol by done. simplify_eq. by apply Hstore.
    + apply map_Forall_insert_2; [|done].
      replace st with (fst (Music.volume state (Some value))) by by rewrite Hvol.
      rewrite volume_accepted by done. by apply Hcmd.
  - by apply Hstore.
  - apply Hstore. unfold Music.pause. by destruct (VoiceState.is_playing _).
  - apply Hstore. unfold Music.resume. by destruct (VoiceState.is_playing _).
  - done.
  - done.
  - destruct (Music.skip state voter) as [st evs] eqn:Hs. simpl. apply Hstore.
    unfold Music.skip, Music.skip_vote in Hs.
    repeat case_match; simplify_eq; try reflexivity; by rewrite volume_skip.
  - destruct (Music.modskip state) as [st evs] eqn:Hs. simpl. apply Hstore.
    unfold Music.modskip in Hs.
    repeat case_match; simplify_eq; try reflexivity; by rewrite volume_skip.
  - done.
  - done.
Qed.

Lemma session_volume (P : Z -> Prop) cap env (cmds : list (snowflake * Command)) :
  P 50 ->
  (forall server value, (server, Volume (Some value)) ∈ cmds -> value <= 200 -> P value) ->
  forall m : gmap snowflake VoiceState.t,
  map_Forall (fun _ st => P (VoiceState.volume st)) m ->
  map_Forall (fun _ st => P (VoiceState.volume st)) (session cap env m cmds).
Proof.
  intros Hinit. induction cmds as [|[server cmd] rest IH]; intros Hcmds m Hm; simpl.
  - done.
  - apply IH.
    + intros g v Hin. apply (Hcmds g v). by apply list_elem_of_further.
    + apply invoke_volume; [done| |done].
      intros v -> Hv. apply (Hcmds server v); [apply list_elem_of_here|done].
Qed.

(** C2, as stated, fails: the command rejects only values above 200, so
    a negative value is accepted and stored. *)
Lemma volume_below_range :
  let m := session 10 offline ∅ [("guild"%string, Volume (Some (-5)))] in
  exists st, m !! "guild"%string = Some st
             /\ VoiceState.volume st = -5
             /\ ~ (0 <= VoiceState.volume st <= 200).
Proof.
  eexists. split; [vm_compute; reflexivity|]. simpl. split; [reflexivity|lia].
Qed.

(** C2, amended.  A guild's state starts with volume 50, and through any
    session of commands the stored volume of every guild stays at or below
    200, and at or above 0 as long as no command asks for a negative value:
    a value above 200 is refused with the max-volume message and the state
    is left as it was, and any other value is stored as it is. *)
Theorem volume_stays_in_range cap env (cmds : list (snowflake * Command))
    (server : snowflake) (st : VoiceState.t) :
  session cap env ∅ cmds !! server = Some st ->
  VoiceState.volume (VoiceState.init cap) = 50
  /\ VoiceState.volume st <= 200
  /\ (existsb negative_volume cmds = false -> 0 <= VoiceState.volume st <= 200)
  /\ (forall s value, 200 < value -> Music.volume s (Some value) = (s, [Say MaxVolume]))
  /\ (forall s value, value <= 200 ->
        VoiceState.volume (fst (Music.volume s (Some value))) = value).
Proof.
  intros Hst. split; [reflexivity|]. split; [|split].
  - refine (session_volume (fun v => v <= 200) cap env cmds _ _ ∅ _ server st Hst).
    + lia.
    + by intros.
    + apply map_Forall_empty.
  - intros Hneg.
    refine (session_volume (fun v => 0 <= v <= 200) cap env cmds _ _ ∅ _ server st Hst).
    + lia.
    + intros g v Hin Hv. split; [|done].
      destruct (Z.ltb_spec v 0) as [Hlt|]; [|done].
      assert (existsb negative_volume cmds = true); [|congruence].
      apply existsb_exists. exists (g, Volume (Some v)).
      split; [by apply list_elem_of_In|]. by apply Z.ltb_lt.
    + apply map_Forall_empty.
  - split; [apply volume_rejected | apply volume_accepted].
Qed.

Lemma volume_stays_in_range_witness :
  VoiceState.volume (VoiceState.init 10) = 50
  /\ VoiceState.volume (VoiceState.set_volume 200 (VoiceState.init 10)) <= 200
  /\ (existsb negative_volume
        [("guild"%string, Volume (Some 0)); ("guild"%string, Volume (Some 201));
         ("guild"%string, Volume (Some 200))] = false ->
      0 <= VoiceState.volume (VoiceState.set_volume 200 (VoiceState.init 10)) <= 200)
  /\ (forall s value, 200 < value -> Music.volume s (Some value) = (s, [Say MaxVolume]))
  /\ (forall s value, value <= 200 ->
        VoiceState.volume (fst (Music.volume s (Some value))) = value).
Proof.
  apply (volume_stays_in_range 10 offline
           [("guild"%string, Volume (Some 0)); ("guild"%string, Volume (Some 201));
            ("guild"%string, Volume (Some 200))]
           "guild"%string (VoiceState.set_volume 200 (VoiceState.init 10))).
  vm_compute. reflexivity.
Defined.

(** ** The estimate *)

Lemma eta_loop_spec (author : Member) (queue : list Entry.t) (count : Z) :
  Music.eta_loop author queue count
  = (count + total_duration (before_first author queue), queued author queue).
Proof.
  revert count. induction queue as [|song rest IH]; intros count; simpl.
  - f_equal. lia.
  - destruct (Member_eqb (Entry.requester song) author); simpl.
    + f_equal. lia.
    + rewrite IH. f_equal. lia.
Qed.

(** What [eta] answers while a track plays and the queue is not empty:
    the total is the one the specification describes, but it is compared
    with the current entry's [duration]. *)
Lemma eta_answer (s : VoiceState.t) (cur : Entry.t) (author : Member) :
  VoiceState.is_playing s = true ->
  VoiceState.current s = Some cur ->
  Playlist.entries (VoiceState.songs s) <> [] ->
  let queue := Playlist.entries (VoiceState.songs s) in
  let count := Entry.remaining cur + total_duration (before_first author queue) in
  Music.eta s author =
    [Say (if count =? Entry.duration cur then YouAreNext
          else if queued author queue then EtaReply (Py.divmod count 60)
          else NotInQueue)].
Proof.
  intros Hplay Hcur Hne queue count. unfold Music.eta.
  rewrite Hplay, Hcur. simpl. fold queue.
  assert (Hlen : (List.length queue =? 0)%nat = false).
  { unfold queue. by destruct (Playlist.entries (VoiceState.songs s)). }
  rewrite Hlen, eta_loop_spec. fold count.
  destruct (count =? Entry.duration cur); [done|].
  by destruct (queued author queue).
Qed.

(** When the current track has its whole duration left and every queued
    track has a positive duration, [eta] answers as specified. *)
Lemma eta_agrees_at_track_start (s : VoiceState.t) (cur : Entry.t) (author : Member) :
  VoiceState.is_playing s = true ->
  VoiceState.current s = Some cur ->
  Playlist.entries (VoiceState.songs s) <> [] ->
  Entry.remaining cur = Entry.duration cur ->
  Forall (fun e => 0 < Entry.duration e) (Playlist.entries (VoiceState.songs s)) ->
  Music.eta s author
  = [Say (announce (computeEta (Entry.remaining cur)
                      (Playlist.entries (VoiceState.songs s)) author))].
Proof.
  intros Hplay Hcur Hne Hrem Hpos.
  rewrite (eta_answer s cur author) by done. simpl. unfold computeEta.
  rewrite <- Hrem.
  destruct (queued author (Playlist.entries (VoiceState.songs s))) eqn:Hq; simpl.
  - by destruct (_ =? _).
  - assert (Hall : before_first author (Playlist.entries (VoiceState.songs s))
                   = Playlist.entries (VoiceState.songs s)).
    { clear -Hq. induction (Playlist.entries (VoiceState.songs s)) as [|e q IH];
        [done|]. simpl in *. apply orb_false_iff in Hq as [-> Hq]. by rewrite IH. }
    rewrite Hall.
    assert (0 < total_duration (Playlist.entries (VoiceState.songs s))).
    { clear -Hne Hpos. destruct Hpos as [|e q He Hq]; [done|]. simpl.
      assert (0 <= total_duration q); [|lia].
      clear -Hq. induction Hq; simpl; lia. }
    destruct (Z.eqb_spec (Entry.remaining cur
                + total_duration (Playlist.entries (VoiceState.songs s)))
               (Entry.remaining cur)); [lia|done].
Qed.

(** C1 at work.  [dave]'s 100-second track has 30 seconds left; [alice]'s
    track is the very next one, so the total for her is the 30 remaining
    seconds and the specified answer is "next up".  The command compares
    the total with the track's duration (100) instead of what remains of
    it (30) and answers with an estimate of 0m 30s.  For [bob] the total
    is 70 seconds and for [carol], who queued nothing, the answer is "not
    in the queue", both as specified.  When the track lasts 70 seconds
    instead, the same comparison tells [bob], whose total is 70 seconds
    and who is second in the queue, that he is next. *)
Theorem eta_misses_next_up :
  let s := party 10 ∅ 1 in
  let queue := Playlist.entries (VoiceState.songs s) in
  VoiceState.is_playing s = true
  /\ computeEta 30 queue alice = NextUp
  /\ Music.eta s alice = [Say (EtaReply (0, 30))]
  /\ Music.eta s alice <> [Say (announce (computeEta 30 queue alice))]
  /\ Music.eta s bob = [Say (EtaReply (1, 10))]
  /\ computeEta 30 queue bob = Duration 70
  /\ Music.eta s carol = [Say NotInQueue]
  /\ computeEta 30 queue carol = NotQueued
  /\ Music.eta (short_party 10 ∅ 1) bob = [Say YouAreNext]
  /\ Music.eta (short_party 10 ∅ 1) alice = [Say (EtaReply (0, 30))].
Proof.
  simpl. repeat split; try reflexivity. discriminate.
Qed.

(** ** Upstream errors *)

Lemma length_take (n : nat) (s : string) :
  String.length (Py.take n s) = Nat.min n (String.length s).
Proof.
  revert s. induction n as [|n IH]; intros [|c s]; simpl; try reflexivity.
  by rewrite IH.
Qed.

Lemma length_append (a b : string) :
  String.length (a +:+ b) = (String.length a + String.length b)%nat.
Proof. induction a as [|c a IH]; simpl; [reflexivity | by rewrite IH]. Qed.

Lemma limit_length_bound (error : string) :
  (String.length (Music.limit_length error) < 2000)%nat.
Proof.
  unfold Music.limit_length.
  destruct (Nat.leb_spec 2000 (String.length error)) as [Hlong|Hshort]; [|done].
  rewrite length_append, length_take.
  change (String.length "...") with 3%nat. lia.
Qed.

Lemma limit_length_short (error : string) :
  (String.length error < 2000)%nat -> Music.limit_length error = error.
Proof.
  intros H. unfold Music.limit_length.
  by destruct (Nat.leb_spec 2000 (String.length error)); [lia|].
Qed.

(** The handler around the first [add_entry] keeps what it sends below
    2000 characters, whatever the upstream text is. *)
Lemma enqueue_error_fits (text error : string) :
  Say (ErrorText error) ∈ Music.enqueue_error_handler text ->
  (String.length error < 2000)%nat.
Proof.
  unfold Music.enqueue_error_handler.
  destruct (Music.upstream_error text) as [e|]; intros Hin.
  - apply list_elem_of_singleton in Hin. simplify_eq. apply limit_length_bound.
  - apply list_elem_of_singleton in Hin. discriminate.
Qed.

(** The handler inside the search fallback sends the text as it is. *)
Lemma search_error_verbatim (text error : string) :
  Music.upstream_error text = Some error ->
  Music.search_error_handler text = [Say (ErrorText error)].
Proof. intros H. unfold Music.search_error_handler. by rewrite H. Qed.

(** Membership in an explicit list of events. *)
Ltac in_events H :=
  repeat (apply elem_of_cons in H as [H|H]; [try discriminate H|]);
  try (by apply not_elem_of_nil in H).

(** [summon] sends no error text. *)
Lemma summon_no_error_text (env : Env) (s s' : VoiceState.t) (a : Member) evs ok
    (error : string) :
  Music.summon env s a = (s', evs, ok) -> Say (ErrorText error) ∉ evs.
Proof.
  unfold Music.summon, Music.create_voice_client, Music.remove_voice_client.
  intros H Hin. destruct (voice_channel a) as [ch|]; [|simplify_eq; in_events Hin].
  destruct (join_voice_channel env ch); repeat case_match;
    simplify_eq; simpl in *; simplify_eq; in_events Hin.
Qed.

(** The only error text the resolution step sends is the one its handler
    around the first [add_entry] has cut. *)
Lemma enqueue_error_text env (s : VoiceState.t) (q error : string) :
  Say (ErrorText error) ∈ snd (Music.enqueue env s q) ->
  exists text raw,
    add_entry env q = AddFails text
    /\ Music.upstream_error text = Some raw
    /\ error = Music.limit_length raw.
Proof.
  unfold Music.enqueue, Music.enqueue_error_handler.
  destruct (add_entry env q) as [e| |text]; simpl.
  - intros Hin. in_events Hin.
  - destruct (extract_info env q) as [[u|]|text]; simpl.
    + destruct (add_entry env u); simpl; intros Hin; in_events Hin.
    + intros Hin. in_events Hin.
    + intros Hin. in_events Hin.
  - destruct (Music.upstream_error text) as [raw|] eqn:Hraw; simpl;
      intros Hin; in_events Hin.
    simplify_eq. by exists text, raw.
Qed.

(** C3.  Every message that [play] makes of an upstream extraction error
    fits the limit of 2000 characters.  Such a message is only ever sent by
    the handler around the first [add_entry]: the lookup that the other
    handler guards raises no extraction error, and an extraction error of
    the search or of the second [add_entry] escapes the command without a
    message.  What is sent is the extracted text after the cut of lines 320
    and 321, which has fewer than 2000 characters whatever the text is. *)
Theorem upstream_error_message_fits env (s : VoiceState.t) (author : Member)
    (song error : string) :
  Say (ErrorText error) ∈ snd (Music.play env s author song) ->
  (exists text raw,
     add_entry env (Py.strip_brackets song) = AddFails text
     /\ Music.upstream_error text = Some raw
     /\ error = Music.limit_length raw)
  /\ (String.length error < 2000)%nat
  /\ (String.length error <= 2000)%nat.
Proof.
  intros Hin.
  assert (Hcut : exists text raw,
             add_entry env (Py.strip_brackets song) = AddFails text
             /\ Music.upstream_error text = Some raw
             /\ error = Music.limit_length raw).
  { unfold Music.play in Hin.
    destruct (Py.contains _ _); [simpl in Hin; in_events Hin|].
    assert (Hpre : exists s1 pre ok,
               match VoiceState.voice s with
               | Some _ => (s, [], true)
               | None => Music.summon env s author
               end = (s1, pre, ok)
               /\ Say (ErrorText error) ∉ pre).
    { destruct (VoiceState.voice s).
      - exists s, [], true. split; [done|]. apply not_elem_of_nil.
      - destruct (Music.summon env s author) as [[s1 pre] ok] eqn:Hs.
        exists s1, pre, ok. split; [done|]. by eapply summon_no_error_text. }
    destruct Hpre as (s1 & pre & ok & Heq & Hpre). rewrite Heq in Hin.
    destruct ok; simpl in Hin; [|done].
    destruct (Playlist.full _); simpl in Hin.
    { apply elem_of_app in Hin as [Hin|Hin]; [done|in_events Hin]. }
    destruct (bool_decide _); simpl in Hin.
    - destruct (Music.enqueue env s1 (Py.strip_brackets song)) as [s2 evs] eqn:He.
      simpl in Hin. apply elem_of_app in Hin as [Hin|Hin]; [done|].
      apply (enqueue_error_text env s1). by rewrite He.
    - apply elem_of_app in Hin as [Hin|Hin]; [done|in_events Hin]. }
  split; [exact Hcut|]. destruct Hcut as (text & raw & _ & _ & ->).
  pose proof (limit_length_bound raw). split; lia.
Qed.

Lemma upstream_error_message_fits_witness :
  (exists text raw,
     add_entry (failing_link long_error) (Py.strip_brackets "a song") = AddFails text
     /\ Music.upstream_error text = Some raw
     /\ Music.limit_length (Py.replicate 2001 "a") = Music.limit_length raw)
  /\ (String.length (Music.limit_length (Py.replicate 2001 "a")) < 2000)%nat
  /\ (String.length (Music.limit_length (Py.replicate 2001 "a")) <= 2000)%nat.
Proof.
  apply (upstream_error_message_fits (failing_link long_error) (party 10 ∅ 1) alice
           "a song" (Music.limit_length (Py.replicate 2001 "a"))).
  vm_compute. apply list_elem_of_further, list_elem_of_here.
Defined.

(** The cut at work: an error text of 2001 characters reaches the chat
    with 1999. *)
Example long_error_is_cut :
  exists error,
    Music.play (failing_link long_error) (party 10 ∅ 1) alice "a song"
    = (Some (party 10 ∅ 1), [AddEntry "a song"; Say (ErrorText error)])
    /\ String.length error = 1999%nat.
Proof. eexists. split; [vm_compute; reflexivity|]. vm_compute. reflexivity. Qed.

(** ** Requests that are turned away *)

Lemma prefix_app (a b : string) : String.prefix a (a +:+ b) = true.
Proof.
  induction a as [|c a IH]; simpl; [by destruct b|].
  destruct (ascii_dec c c); [exact IH | done].
Qed.

Lemma prefix_inv (a s : string) :
  String.prefix a s = true -> exists b, s = a +:+ b.
Proof.
  revert s. induction a as [|c a IH]; intros s H.
  - by exists s.
  - destruct s as [|d s]; simpl in H; [discriminate|].
    destruct (ascii_dec c d) as [->|]; [|discriminate].
    destruct (IH s H) as [b ->]. by exists b.
Qed.

(** [Py.contains] is the substring test. *)
Lemma contains_spec (needle hay : string) :
  Py.contains needle hay = true <-> exists pre post, hay = pre +:+ needle +:+ post.
Proof.
  split.
  - induction hay as [|c hay IH]; cbn [Py.contains]; intros H.
    + rewrite orb_false_r in H. apply prefix_inv in H as [b Hb]. by exists EmptyString, b.
    + apply orb_true_iff in H as [H|H].
      * apply prefix_inv in H as [b Hb]. by exists EmptyString, b.
      * destruct (IH H) as (pre & post & ->). by exists (String c pre), post.
  - intros (pre & post & ->). induction pre as [|c pre IH].
    + change (EmptyString +:+ needle +:+ post) with (needle +:+ post).
      destruct (needle +:+ post) eqn:E; cbn [Py.contains];
        rewrite <- E, prefix_app; reflexivity.
    + change (String c pre +:+ needle +:+ post)
        with (String c (pre +:+ needle +:+ post)).
      cbn [Py.contains]. rewrite IH. apply orb_true_r.
Qed.

(** C10.  A play request whose query contains "soundcloud.com" is answered
    with the soundcloud notice and nothing else happens: the command
    returns before it asks for the guild's state, so the dictionary of
    guild states, and with it the guild's queue, is what it was, and the
    resolver is not called. *)
Theorem soundcloud_is_refused cap env (m : gmap snowflake VoiceState.t)
    (server : snowflake) (state : VoiceState.t) (author : Member) (pre post : string) :
  let song := pre +:+ "soundcloud.com" +:+ post in
  Music.play env state author song = (None, [Say SoundcloudUnsupported])
  /\ invoke cap env m server (Play author song) = (m, [Say SoundcloudUnsupported])
  /\ forallb (fun ev => negb (is_resolution ev))
       (snd (invoke cap env m server (Play author song))) = true.
Proof.
  intros song.
  assert (Hc : Py.contains "soundcloud.com" song = true).
  { apply contains_spec. by exists pre, post. }
  assert (Hp : forall st, Music.play env st author song = (None, [Say SoundcloudUnsupported])).
  { intros st. unfold Music.play. by rewrite Hc. }
  split; [apply Hp|].
  assert (Hi : invoke cap env m server (Play author song) = (m, [Say SoundcloudUnsupported])).
  { unfold invoke. destruct (Music.get_voice_state cap m server) as [st created].
    by rewrite Hp. }
  rewrite Hi. split; reflexivity.
Qed.

(** The same with the substring test as the command evaluates it. *)
Lemma soundcloud_is_refused_by_test env (state : VoiceState.t) (author : Member)
    (song : string) :
  Py.contains "soundcloud.com" song = true ->
  Music.play env state author song = (None, [Say SoundcloudUnsupported]).
Proof. intros Hc. unfold Music.play. by rewrite Hc. Qed.

Example soundcloud_sample :
  invoke 10 offline {[ "guild"%string := party 10 ∅ 1 ]} "guild"
    (Play alice "https://soundcloud.com/artist/track")
  = ({[ "guild"%string := party 10 ∅ 1 ]}, [Say SoundcloudUnsupported]).
Proof. vm_compute. reflexivity. Qed.

(** What [summon] does to the queue. *)
Lemma songs_summon (env : Env) (s s' : VoiceState.t) (a : Member) evs ok :
  Music.summon env s a = (s', evs, ok) ->
  VoiceState.songs s' = VoiceState.songs s
  /\ forallb (fun ev => negb (is_resolution ev)) evs = true.
Proof.
  intros H. apply summon_frame in H as [[-> | [vc ->]] Hevs]; by split.
Qed.

(** A guild without a voice connection is summoned before the capacity
    check: with a playlist of capacity 0 the request joins the author's
    channel and only then reports the full queue. *)
Lemma full_queue_summons_first :
  Playlist.full (VoiceState.songs (VoiceState.init 0)) = true
  /\ Music.play online (VoiceState.init 0) alice "a song"
     = (Some (VoiceState.set_voice
                (Some {| channel := {| channel_id := "77"; voice_members := [] |} |})
                (VoiceState.init 0)),
        [Say (ReadyToPlay "77"); Say QueueFull])
  /\ Music.play offline (VoiceState.init 0) dave "a song"
     = (Some (VoiceState.init 0), [Say NotInVoiceChannel]).
Proof. repeat split; vm_compute; reflexivity. Qed.

(** C7, as stated, fails: on a full queue a soundcloud query gets the
    soundcloud notice, not the queue-full message. *)
Lemma full_queue_other_reply :
  let s := party 2 ∅ 1 in
  let song := "https://soundcloud.com/artist/track"%string in
  Playlist.full (VoiceState.songs s) = true
  /\ snd (Music.play offline s alice song) = [Say SoundcloudUnsupported]
  /\ Say QueueFull ∉ snd (Music.play offline s alice song).
Proof.
  split; [reflexivity|]. split; [reflexivity|].
  change (snd _) with [Say SoundcloudUnsupported].
  intros Hin. apply list_elem_of_singleton in Hin. discriminate.
Qed.

(** C7, amended.  A play request on a guild whose queue is at capacity
    never calls the resolver and leaves the queue as it is.  When the
    query does not contain "soundcloud.com" and the guild already has its
    voice connection, the request is answered with the queue-full message
    alone and the guild's state is unchanged. *)
Theorem full_queue_is_left_alone env (s : VoiceState.t) (author : Member) (song : string) :
  Playlist.full (VoiceState.songs s) = true ->
  forallb (fun ev => negb (is_resolution ev)) (snd (Music.play env s author song)) = true
  /\ (forall s', fst (Music.play env s author song) = Some s' ->
        VoiceState.songs s' = VoiceState.songs s)
  /\ (Py.contains "soundcloud.com" song = false ->
      VoiceState.voice s <> None ->
      Music.play env s author song = (Some s, [Say QueueFull])).
Proof.
  intros Hfull. unfold Music.play.
  destruct (Py.contains "soundcloud.com" song).
  - simpl. repeat split; [intros ? [=] | intros [=]].
  - destruct (VoiceState.voice s) as [v|] eqn:Hv.
    + simpl. rewrite Hfull. simpl. repeat split. by intros ? [= <-].
    + destruct (Music.summon env s author) as [[s1 evs] ok] eqn:Hs.
      apply songs_summon in Hs as [Hsongs Hevs].
      destruct ok; simpl.
      * rewrite Hsongs, Hfull. simpl. rewrite forallb_app, Hevs. simpl.
        repeat split; [by intros ? [= <-] | done].
      * rewrite Hevs. repeat split; [by intros ? [= <-] | done].
Qed.

Lemma full_queue_is_left_alone_witness :
  forallb (fun ev => negb (is_resolution ev))
    (snd (Music.play offline (party 2 ∅ 1) alice "a song")) = true
  /\ (forall s', fst (Music.play offline (party 2 ∅ 1) alice "a song") = Some s' ->
        VoiceState.songs s' = VoiceState.songs (party 2 ∅ 1))
  /\ (Py.contains "soundcloud.com" "a song" = false ->
      VoiceState.voice (party 2 ∅ 1) <> None ->
      Music.play offline (party 2 ∅ 1) alice "a song" = (Some (party 2 ∅ 1), [Say QueueFull])).
Proof.
  apply (full_queue_is_left_alone offline (party 2 ∅ 1) alice "a song").
  reflexivity.
Defined.

(** ** Votes and the audio worker *)

Lemma idle_not_playing (s : VoiceState.t) :
  Worker.idle s -> VoiceState.is_playing s = false.
Proof.
  unfold Worker.idle, VoiceState.is_playing, Player.is_done.
  destruct (VoiceState.voice s), (VoiceState.current s) as [e|]; try done.
  destruct (Entry.player e); [intros -> | ]; done.
Qed.

Lemma idle_update_player (f : Player.t -> Player.t) (s : VoiceState.t) :
  (forall p, Player.done p = true -> Player.done (f p) = true) ->
  Worker.idle s -> Worker.idle (VoiceState.update_player f s).
Proof.
  unfold Worker.idle, VoiceState.update_player. simpl. intros Hf.
  destruct (VoiceState.current s) as [e|]; simpl; [|done].
  destruct (Entry.player e); simpl; [apply Hf | done].
Qed.

Lemma idle_skip (s : VoiceState.t) : Worker.idle s -> Worker.idle (VoiceState.skip s).
Proof.
  intros H. rewrite skip_not_playing by by apply idle_not_playing. exact H.
Qed.

Lemma skip_makes_idle (s : VoiceState.t) :
  VoiceState.is_playing s = true -> Worker.idle (VoiceState.skip s).
Proof.
  intros H. apply skip_stops_player in H. revert H.
  unfold Worker.player_done, Worker.idle, Player.is_done.
  destruct (VoiceState.current _) as [e|]; [|done].
  by destruct (Entry.player e).
Qed.

(** A vote is only ever recorded while the current entry is playing. *)
Lemma skip_vote_not_playing (s : VoiceState.t) (voter : Member) :
  VoiceState.is_playing s = false ->
  Music.skip_vote s voter = (s, [Say NotPlayingMusic], false).
Proof. intros H. unfold Music.skip_vote. by rewrite H. Qed.

(** The part of [skip] before its reply touches nothing but the votes. *)
Lemma skip_vote_frame (s : VoiceState.t) (voter : Member) :
  exists votes, (Music.skip_vote s voter).1.1 = VoiceState.set_skip_votes votes s.
Proof.
  unfold Music.skip_vote.
  repeat case_match; simpl; try (by exists (VoiceState.skip_votes s); destruct s);
    by eexists.
Qed.

Lemma volume_frame (s : VoiceState.t) (value : option Z) :
  let s' := (Music.volume s value).1 in
  VoiceState.songs s' = VoiceState.songs s
  /\ VoiceState.skip_votes s' = VoiceState.skip_votes s
  /\ VoiceState.play_next_song s' = VoiceState.play_next_song s
  /\ (Worker.idle s -> Worker.idle s')
  /\ (forall e, VoiceState.current s = Some e -> Entry.player e = None ->
      VoiceState.current s' = Some e).
Proof.
  unfold Music.volume. destruct value as [value|]; simpl; [|by repeat split].
  destruct (200 <? value); simpl; [by repeat split|].
  change (VoiceState.is_playing (VoiceState.set_volume value s))
    with (VoiceState.is_playing s).
  destruct (VoiceState.is_playing s) eqn:Hp; simpl; [|by repeat split].
  assert (Hbusy : ~ Worker.idle s).
  { intros Hidle. apply idle_not_playing in Hidle. congruence. }
  assert (Hset : forall e, VoiceState.current s = Some e -> Entry.player e <> None).
  { intros e He Hn. apply is_playing_spec in Hp as (? & e' & p & _ & He' & Hp & _).
    congruence. }
  destruct (Py.truediv value 100); simpl;
    (split; [done|]; split; [done|]; split; [done|]; split; [done|]);
    intros e He Hn; by destruct (Hset e He).
Qed.

(** The invariant holds at the start and is kept by every step. *)
Lemma inv_init cap : Worker.inv (Worker.init cap).
Proof. split; simpl; [constructor | done]. Qed.

Lemma player_none_idle (s : VoiceState.t) (e : Entry.t) :
  VoiceState.current s = Some e -> Entry.player e = None -> Worker.idle s.
Proof. intros He Hp. unfold Worker.idle. by rewrite He, Hp. Qed.

(** A change of the state that keeps the queue and the event, keeps an
    idle player idle and an absent player absent, and records no vote while
    nothing plays, preserves the invariant. *)
Lemma inv_with_state (w : Worker.t) (st : VoiceState.t) :
  Worker.inv w ->
  VoiceState.songs st = VoiceState.songs (Worker.state w) ->
  VoiceState.play_next_song st = VoiceState.play_next_song (Worker.state w) ->
  (Worker.idle (Worker.state w) -> Worker.idle st) ->
  (VoiceState.skip_votes (Worker.state w) = ∅ -> Worker.idle (Worker.state w) ->
   VoiceState.skip_votes st = ∅) ->
  (forall e, VoiceState.current (Worker.state w) = Some e -> Entry.player e = None ->
     exists e', VoiceState.current st = Some e' /\ Entry.player e' = None) ->
  Worker.inv (Worker.with_state st w).
Proof.
  intros [Hq Hpc] Hsongs Hev Hidle Hvotes Hcur. split; simpl.
  - by rewrite Hsongs.
  - destruct (Worker.pc w); simpl in *; rewrite ?Hev.
    + destruct Hpc; auto.
    + destruct Hpc as (? & ? & ? & ?); auto.
    + destruct Hpc as (Hv & (e & He & Hp) & Ht & Hn).
      repeat split; eauto using player_none_idle.
    + destruct Hpc; auto.
    + done.
Qed.

Lemma inv_worker (w : Worker.t) : Worker.inv w -> Worker.inv (Worker.audio_player_task w).
Proof.
  intros [Hq Hpc]. unfold Worker.audio_player_task, Worker.inv.
  destruct (Worker.pc w) eqn:Hpcw; simpl in *.
  - destruct Hpc. auto.
  - destruct Hpc as (Hv & Hi & Ht & Hn).
    unfold Playlist.get_next_entry.
    destruct (Playlist.entries _) as [|e q] eqn:Hq'; simpl.
    + rewrite Hq'. repeat split; try done.
    + apply Forall_cons in Hq as [He Hq]. repeat split; eauto.
  - destruct Hpc as (Hv & (e & He & Hp) & Ht & Hn). rewrite He.
    destruct (Worker.has_filename e).
    + destruct (VoiceState.voice _); simpl; [|done].
      destruct (Py.truediv _ _); simpl; [|done].
      split; [done|]. split; [done|]. congruence.
    + rewrite Hpcw. eauto 10.
  - destruct (VoiceState.play_next_song _) eqn:Hev; simpl.
    + destruct Hpc. auto.
    + by rewrite Hpcw, Hev.
  - by rewrite Hpcw.
Qed.

Lemma inv_after (w : Worker.t) (removed : bool) :
  Worker.thread_alive w = true -> Worker.player_done (Worker.state w) = true ->
  Worker.inv w -> Worker.inv (Worker.toggle_next removed w).
Proof.
  intros Halive Hdone [Hq Hpc]. unfold Worker.toggle_next, Worker.inv. simpl.
  split; [by destruct removed|].
  destruct (Worker.pc w); simpl in *;
    [ destruct Hpc; congruence
    | destruct Hpc as (? & ? & ? & ?); congruence
    | destruct Hpc as (? & ? & ? & ?); congruence
    | | done ].
  split; [|done]. intros _.
  revert Hdone. unfold Worker.player_done, Worker.idle, Player.is_done.
  destruct removed; simpl;
    (destruct (VoiceState.current _) as [e|]; [|done]);
    by destruct (Entry.player e).
Qed.

Lemma inv_enqueue (w : Worker.t) (e : Entry.t) :
  Entry.player e = None -> Worker.inv w ->
  Worker.inv (Worker.with_state
                (VoiceState.set_songs
                   (Playlist.append e (VoiceState.songs (Worker.state w)))
                   (Worker.state w)) w).
Proof.
  intros He [Hq Hpc]. unfold Worker.inv, Worker.with_state. simpl. split.
  - apply Forall_app. split; [done|]. by constructor.
  - by destruct (Worker.pc w).
Qed.

Lemma inv_step (w w' : Worker.t) : Worker.step w w' -> Worker.inv w -> Worker.inv w'.
Proof.
  intros Hstep Hinv. destruct Hstep.
  - by apply inv_worker.
  - apply inv_with_state; try done.
    + apply idle_update_player. done.
    + intros e He Hp. eexists. unfold VoiceState.update_player. simpl.
      rewrite He. simpl. split; [reflexivity|]. simpl. by rewrite Hp.
  - by apply inv_after.
  - apply inv_with_state; try done.
    + unfold Worker.idle. simpl.
      by destruct (VoiceState.current _) as [e|].
    + intros e He Hp. eexists. simpl. rewrite He. simpl. split; [reflexivity|done].
  - destruct (skip_vote_frame (Worker.state w) voter) as [votes Hf].
    apply inv_with_state; try done.
    + by rewrite Hf.
    + by rewrite Hf.
    + by rewrite Hf.
    + intros Hv Hidle. apply idle_not_playing in Hidle.
      by rewrite (skip_vote_not_playing _ _ Hidle).
    + rewrite Hf. eauto.
  - apply inv_with_state; try done.
    + unfold VoiceState.skip. by destruct (VoiceState.is_playing _).
    + unfold VoiceState.skip. by destruct (VoiceState.is_playing _).
    + apply idle_skip.
    + intros. apply skip_clears_votes.
    + intros e He Hp. rewrite skip_not_playing; [eauto|].
      apply idle_not_playing. by eapply player_none_idle.
  - apply inv_with_state; try done;
      unfold Music.on_voice_state_update;
      repeat case_match; simpl; eauto.
  - by apply inv_enqueue.
  - apply inv_with_state; eauto.
  - destruct (volume_frame (Worker.state w) value) as (? & ? & ? & ? & ?).
    apply inv_with_state; try done; eauto. congruence.
  - apply inv_with_state; try done; unfold Music.pause;
      destruct (VoiceState.is_playing _) eqn:Hp; try done.
    + by apply idle_update_player.
    + intros e He Hn. apply is_playing_spec in Hp as (? & ? & ? & ? & ? & ? & ?).
      congruence.
    + eauto.
  - apply inv_with_state; try done; unfold Music.resume;
      destruct (VoiceState.is_playing _) eqn:Hp; try done.
    + by apply idle_update_player.
    + intros e He Hn. apply is_playing_spec in Hp as (? & ? & ? & ? & ? & ? & ?).
      congruence.
    + eauto.
Qed.

Lemma inv_reachable cap (w : Worker.t) :
  rtc Worker.step (Worker.init cap) w -> Worker.inv w.
Proof.
  intros Hrun. assert (Hinit := inv_init cap). revert Hinit.
  induction Hrun as [|w1 w2 w3 Hstep _ IH]; [done|].
  intros Hinv. apply IH. by eapply inv_step.
Qed.

(** C8.  In every configuration a guild can reach: the top of the worker
    loop empties the vote set before the next entry is dequeued; the
    state's skip empties it, and so do the skip command whenever it goes
    on to skip (by the requester or by a passed vote) and the moderator's
    skip; between the top of the loop and the start of the next player
    nothing is playing, no vote can be recorded and the set stays empty;
    and at the moment the worker starts the player of a new entry the set
    is empty.  So every vote held while an entry plays was cast against
    that entry. *)
Theorem votes_do_not_carry_over cap (w : Worker.t) :
  rtc Worker.step (Worker.init cap) w ->
  (Worker.pc w = Worker.LoopTop ->
     Worker.pc (Worker.audio_player_task w) = Worker.Dequeue
     /\ VoiceState.skip_votes (Worker.state (Worker.audio_player_task w)) = ∅
     /\ VoiceState.songs (Worker.state (Worker.audio_player_task w))
        = VoiceState.songs (Worker.state w))
  /\ VoiceState.skip_votes (VoiceState.skip (Worker.state w)) = ∅
  /\ (forall voter, snd (Music.skip_vote (Worker.state w) voter) = true ->
      VoiceState.skip_votes (fst (Music.skip (Worker.state w) voter)) = ∅)
  /\ (VoiceState.is_playing (Worker.state w) = true ->
      VoiceState.skip_votes (fst (Music.modskip (Worker.state w))) = ∅)
  /\ (Worker.pc w = Worker.Dequeue \/ Worker.pc w = Worker.Staging ->
      VoiceState.skip_votes (Worker.state w) = ∅
      /\ VoiceState.is_playing (Worker.state w) = false
      /\ forall voter, (Music.skip_vote (Worker.state w) voter).1.1 = Worker.state w)
  /\ (Worker.pc w = Worker.Staging ->
      Worker.pc (Worker.audio_player_task w) = Worker.Waiting ->
      VoiceState.skip_votes (Worker.state (Worker.audio_player_task w)) = ∅
      /\ VoiceState.is_playing (Worker.state (Worker.audio_player_task w)) = true).
Proof.
  intros Hrun. apply inv_reachable in Hrun as [Hq Hpc].
  split; [|split; [apply skip_clears_votes|split; [|split; [|split]]]].
  - intros Htop. unfold Worker.audio_player_task. rewrite Htop. done.
  - intros voter. unfold Music.skip.
    destruct (Music.skip_vote (Worker.state w) voter) as [[s1 evs] skipping].
    simpl. intros ->. apply skip_clears_votes.
  - intros Hplay. unfold Music.modskip. rewrite Hplay. apply skip_clears_votes.
  - intros Hw.
    assert (Hquiet : VoiceState.skip_votes (Worker.state w) = ∅
                     /\ Worker.idle (Worker.state w)).
    { destruct Hw as [Hw|Hw]; rewrite Hw in Hpc.
      - destruct Hpc as (? & ? & _). done.
      - destruct Hpc as (? & (e & ? & ?) & _). eauto using player_none_idle. }
    destruct Hquiet as [Hv Hidle]. apply idle_not_playing in Hidle.
    repeat split; try done.
    intros voter. by rewrite skip_vote_not_playing.
  - intros Hw Hnext. rewrite Hw in Hpc. destruct Hpc as (Hv & (e & He & Hp) & _).
    revert Hnext. unfold Worker.audio_player_task. rewrite Hw, He.
    destruct (Worker.has_filename e); [|by rewrite Hw].
    destruct (VoiceState.voice (Worker.state w)) as [v|] eqn:Hvoice; [|done].
    destruct (Py.truediv _ _); [|done].
    intros _. simpl. split; [done|].
    unfold VoiceState.is_playing. simpl. by rewrite Hvoice.
Qed.

Lemma votes_do_not_carry_over_witness :
  (Worker.pc about_to_play = Worker.LoopTop ->
     Worker.pc (Worker.audio_player_task about_to_play) = Worker.Dequeue
     /\ VoiceState.skip_votes (Worker.state (Worker.audio_player_task about_to_play)) = ∅
     /\ VoiceState.songs (Worker.state (Worker.audio_player_task about_to_play))
        = VoiceState.songs (Worker.state about_to_play))
  /\ VoiceState.skip_votes (VoiceState.skip (Worker.state about_to_play)) = ∅
  /\ (forall voter, snd (Music.skip_vote (Worker.state about_to_play) voter) = true ->
      VoiceState.skip_votes (fst (Music.skip (Worker.state about_to_play) voter)) = ∅)
  /\ (VoiceState.is_playing (Worker.state about_to_play) = true ->
      VoiceState.skip_votes (fst (Music.modskip (Worker.state about_to_play))) = ∅)
  /\ (Worker.pc about_to_play = Worker.Dequeue \/ Worker.pc about_to_play = Worker.Staging ->
      VoiceState.skip_votes (Worker.state about_to_play) = ∅
      /\ VoiceState.is_playing (Worker.state about_to_play) = false
      /\ forall voter,
           (Music.skip_vote (Worker.state about_to_play) voter).1.1
           = Worker.state about_to_play)
  /\ (Worker.pc about_to_play = Worker.Staging ->
      Worker.pc (Worker.audio_player_task about_to_play) = Worker.Waiting ->
      VoiceState.skip_votes (Worker.state (Worker.audio_player_task about_to_play)) = ∅
      /\ VoiceState.is_playing (Worker.state (Worker.audio_player_task about_to_play))
         = true).
Proof.
  apply (votes_do_not_carry_over 10 about_to_play).
  unfold about_to_play.
  eapply rtc_l; [apply Worker.step_worker|].
  eapply rtc_l; [apply (Worker.step_joined _ (lounge ["1001"; "1002"]))|].
  eapply rtc_l; [apply (Worker.step_enqueue _ (track alice 40 40 None)); reflexivity|].
  apply rtc_once, Worker.step_worker.
Defined.

Example about_to_play_sample :
  Worker.pc about_to_play = Worker.Staging
  /\ Worker.pc (Worker.audio_player_task about_to_play) = Worker.Waiting.
Proof. split; reflexivity. Qed.

(** * Further properties *)

(** ** The dictionary of guild states *)

(** X1.  [get_voice_state] files the state it returns under the guild's
    id, creates one only when the guild had none, leaves every other
    guild's entry alone, and asked again returns the same state without
    touching the dictionary. *)
Theorem get_voice_state_files_state cap (m : gmap snowflake VoiceState.t)
    (server : snowflake) :
  let state := fst (Music.get_voice_state cap m server) in
  let m' := snd (Music.get_voice_state cap m server) in
  m' !! server = Some state
  /\ (forall st, m !! server = Some st -> state = st /\ m' = m)
  /\ (m !! server = None -> state = VoiceState.init cap)
  /\ (forall other, other <> server -> m' !! other = m !! other)
  /\ Music.get_voice_state cap m' server = (state, m').
Proof.
  unfold Music.get_voice_state.
  destruct (m !! server) as [st|] eqn:Hl; simpl.
  - rewrite Hl. split; [done|]. split; [by intros ? [= <-]|]. by repeat split.
  - rewrite lookup_insert_eq. split; [done|]. split; [done|]. split; [done|].
    split; [|done]. intros other Hne. by rewrite lookup_insert_ne.
Qed.

Lemma invoke_result cap env (m : gmap snowflake VoiceState.t) (server : snowflake)
    (cmd : Command) :
  let m' := (invoke cap env m server cmd).1 in
  m' = m \/ exists st, m' = <[server := st]> m.
Proof.
  unfold invoke, Music.get_voice_state.
  destruct (m !! server) as [st0|] eqn:Hl;
    destruct cmd as [a song|value| | |a| |voter| | |]; simpl;
    repeat case_match; simpl; simplify_eq;
    rewrite ?insert_insert_eq; eauto using insert_id.
Qed.

(** X2.  Commands invoked in other guilds never change a guild's state:
    through a whole session, a guild that receives no command keeps the
    entry it had. *)
Theorem guilds_are_independent cap env (m : gmap snowflake VoiceState.t)
    (other : snowflake) (cmds : list (snowflake * Command)) :
  Forall (fun c => c.1 <> other) cmds ->
  session cap env m cmds !! other = m !! other.
Proof.
  intros Hcmds. revert m.
  induction Hcmds as [|[server cmd] rest Hne _ IH]; intros m; simpl; [done|].
  rewrite IH. simpl in Hne.
  destruct (invoke_result cap env m server cmd) as [-> | [st ->]];
    [done | by rewrite lookup_insert_ne].
Qed.

Lemma guilds_are_independent_witness :
  session 10 offline {[ "a"%string := party 10 ∅ 1 ]}
    [("b"%string, Volume (Some 10)); ("c"%string, Skip alice)] !! "a"%string
  = ({[ "a"%string := party 10 ∅ 1 ]} : gmap snowflake VoiceState.t) !! "a"%string.
Proof.
  apply (guilds_are_independent 10 offline {[ "a"%string := party 10 ∅ 1 ]} "a"%string
           [("b"%string, Volume (Some 10)); ("c"%string, Skip alice)]).
  repeat constructor; simpl; discriminate.
Defined.

(** ** Connecting *)

Lemma create_voice_client_frame env (s s' : VoiceState.t) (ch : snowflake) evs :
  Music.create_voice_client env s ch = (evs, Some s') ->
  exists vc, s' = VoiceState.set_voice (Some vc) s.
Proof.
  unfold Music.create_voice_client. intros H.
  destruct (join_voice_channel env ch) eqn:Hj;
    repeat case_match; simplify_eq; simpl in *; simplify_eq; eauto.
Qed.

(** X3.  [create_voice_client] changes nothing of the state but its voice
    client.  When the bot already has a client in the requested channel it
    is reused and nothing is joined or disconnected; a client in another
    channel is disconnected before the join is attempted, and only then;
    and the call fails exactly when a join was needed and failed, in which
    case the old client has already been disconnected. *)
Theorem create_voice_client_cases env (s : VoiceState.t) (ch : snowflake) :
  let evs := fst (Music.create_voice_client env s ch) in
  let r := snd (Music.create_voice_client env s ch) in
  (forall s', r = Some s' -> exists vc, s' = VoiceState.set_voice (Some vc) s)
  /\ (forall v, voice_client_in env = Some v -> channel_id (channel v) = ch ->
       evs = [] /\ r = Some (VoiceState.set_voice (Some v) s))
  /\ (Disconnect ∈ evs <->
       exists v, voice_client_in env = Some v /\ channel_id (channel v) <> ch)
  /\ (r = None <->
       join_voice_channel env ch = None
       /\ forall v, voice_client_in env = Some v -> channel_id (channel v) <> ch).
Proof.
  unfold Music.create_voice_client.
  destruct (voice_client_in env) as [v|] eqn:Hv; simpl.
  - destruct (decide (channel_id (channel v) = ch)) as [Heq|Hne].
    + rewrite bool_decide_eq_true_2 by done. simpl. split; [|split; [|split]].
      * intros s' [= <-]. eauto.
      * by intros v' [= <-] _.
      * split; [intros Hin; by apply not_elem_of_nil in Hin|].
        intros (v' & [= <-] & Hne). done.
      * split; [done|]. intros [_ Hne]. by destruct (Hne v).
    + rewrite bool_decide_eq_false_2 by done. simpl. split; [|split; [|split]].
      * destruct (join_voice_channel env ch); simpl; [|done].
        intros s' [= <-]. eauto.
      * intros v' [= <-] Heq. done.
      * split; [eauto|]. intros _. apply list_elem_of_here.
      * destruct (join_voice_channel env ch); simpl; split; try done.
        -- by intros [? _].
        -- split; [done|]. by intros v' [= <-].
  - split; [|split; [|split]].
    + destruct (join_voice_channel env ch); simpl; [|done].
      intros s' [= <-]. eauto.
    + done.
    + split; [intros Hin; by apply not_elem_of_nil in Hin|].
      by intros (v' & ? & _).
    + destruct (join_voice_channel env ch); simpl; split; try done.
      by intros [? _].
Qed.

Lemma create_voice_client_silent env (s : VoiceState.t) (ch : snowflake) (r : Reply) :
  Say r ∉ fst (Music.create_voice_client env s ch).
Proof.
  unfold Music.create_voice_client. intros Hin.
  repeat case_match; simpl in Hin; in_events Hin.
Qed.

(** X4.  [summon] returns success exactly when the author is in a voice
    channel and [create_voice_client] succeeds for that channel.  The state
    then differs from the old one in its voice client only, and the ready
    message naming the channel is the last event, unless sending it is
    forbidden: then no message is sent at all and the summon succeeds all
    the same.  A failed summon leaves the state as it was, a voice client
    it already had included: an author outside every voice channel gets
    the single not-in-a-channel message, and a failed connection is always
    reported. *)
Theorem summon_outcome env (s s' : VoiceState.t) (author : Member) evs (ok : bool) :
  Music.summon env s author = (s', evs, ok) ->
  (ok = true <->
     exists ch s1, voice_channel author = Some ch
                   /\ snd (Music.create_voice_client env s ch) = Some s1)
  /\ (ok = true ->
      exists vc ch,
        s' = VoiceState.set_voice (Some vc) s
        /\ voice_channel author = Some ch
        /\ (ready_forbidden env = false -> last evs = Some (Say (ReadyToPlay ch)))
        /\ (ready_forbidden env = true -> forall r, Say r ∉ evs))
  /\ (ok = false -> s' = s /\ VoiceState.voice s' = VoiceState.voice s)
  /\ (voice_channel author = None -> ok = false /\ evs = [Say NotInVoiceChannel])
  /\ (ok = false -> voice_channel author <> None -> Say FailedToConnect ∈ evs).
Proof.
  unfold Music.summon. intros H.
  destruct (voice_channel author) as [ch|] eqn:Hch.
  - pose proof (create_voice_client_silent env s ch) as Hsilent.
    destruct (Music.create_voice_client env s ch) as [evs0 [s0|]] eqn:Hc;
      simpl in Hsilent; simplify_eq.
    + destruct (create_voice_client_frame _ _ _ _ _ Hc) as [vc ->].
      split.
      { split; [|done]. intros _. exists ch. eexists. split; [done|].
        by rewrite Hc. }
      split; [|split; [done|split; done]].
      intros _. exists vc, ch. split; [done|]. split; [done|]. split.
      * intros ->. by rewrite last_snoc.
      * intros -> r. rewrite app_nil_r. apply Hsilent.
    + split.
      { split; [done|]. intros (ch' & s1 & [= <-] & Hs1). by rewrite Hc in Hs1. }
      split; [done|]. split; [done|]. split; [done|].
      intros _ _. apply elem_of_app. right. apply list_elem_of_here.
  - simplify_eq. split.
    { split; [done|]. by intros (ch' & s1 & ? & _). }
    split; [done|]. by repeat split.
Qed.

Lemma summon_outcome_witness :
  let s := VoiceState.init 10 in
  let s' :=
    VoiceState.set_voice
      (Some {| channel := {| channel_id := "77"; voice_members := [] |} |}) s in
  let evs := [Say (ReadyToPlay "77")] in
  (true = true <->
     exists ch s1, voice_channel alice = Some ch
                   /\ snd (Music.create_voice_client online s ch) = Some s1)
  /\ (true = true ->
      exists vc ch,
        s' = VoiceState.set_voice (Some vc) s
        /\ voice_channel alice = Some ch
        /\ (ready_forbidden online = false -> last evs = Some (Say (ReadyToPlay ch)))
        /\ (ready_forbidden online = true -> forall r, Say r ∉ evs))
  /\ (true = false -> s' = s /\ VoiceState.voice s' = VoiceState.voice s)
  /\ (voice_channel alice = None -> true = false /\ evs = [Say NotInVoiceChannel])
  /\ (true = false -> voice_channel alice <> None -> Say FailedToConnect ∈ evs).
Proof.
  apply (summon_outcome online (VoiceState.init 10) _ alice _ true).
  reflexivity.
Defined.

(** ** Requests and the resolver *)

(** Membership in an explicit list of events. *)
Ltac elem_cases H :=
  repeat (apply elem_of_cons in H as [H|H]; [try discriminate H|]);
  try (by apply not_elem_of_nil in H).

(** X5.  The resolution step of [play] changes the state only by
    appending an entry to the queue, and does so exactly when it announces
    that entry as enqueued, as its last event; the entry is the one
    [add_entry] returned for the query or for the first search result.  On
    every other path the state is left as it was and at most one message
    is sent. *)
Theorem enqueue_announces_what_it_adds env (s : VoiceState.t) (q : string) :
  let s' := fst (Music.enqueue env s q) in
  let evs := snd (Music.enqueue env s q) in
  (List.length (List.filter is_say evs) <= 1)%nat
  /\ ((forall e, Say (Enqueued e) ∉ evs) -> s' = s)
  /\ (forall e, Say (Enqueued e) ∈ evs ->
        s' = VoiceState.set_songs (Playlist.append e (VoiceState.songs s)) s
        /\ last evs = Some (Say (Enqueued e))
        /\ (add_entry env q = Added e
            \/ exists u, add_entry env q = WrongEntryType
                         /\ extract_info env q = Info (Url u)
                         /\ add_entry env u = Added e)).
Proof.
  unfold Music.enqueue, Music.enqueue_error_handler, Music.search_error_handler.
  destruct (add_entry env q) as [e| |text] eqn:Ha; simpl.
  - split; [lia|]. split.
    + intros Hno. destruct (Hno e). apply list_elem_of_further, list_elem_of_here.
    + intros e' Hin. elem_cases Hin. simplify_eq. eauto.
  - destruct (extract_info env q) as [[u|]|text] eqn:Hx; simpl.
    + destruct (add_entry env u) as [e| |text] eqn:Hu; simpl.
      * split; [lia|]. split.
        -- intros Hno. destruct (Hno e). do 3 apply list_elem_of_further.
           apply list_elem_of_here.
        -- intros e' Hin. elem_cases Hin. simplify_eq. eauto 10.
      * split; [lia|]. split; [done|]. intros e' Hin. elem_cases Hin.
      * split; [lia|]. split; [done|]. intros e' Hin. elem_cases Hin.
    + split; [lia|]. split; [done|]. intros e' Hin. elem_cases Hin.
    + split; [lia|]. split; [done|]. intros e' Hin. elem_cases Hin.
  - destruct (Music.upstream_error text); simpl;
      (split; [lia|]; split; [done|]; intros e' Hin; elem_cases Hin).
Qed.

(** X6.  Errors that escape the resolution step of [play].  After the
    message that the link could not be downloaded the command runs on to
    its closing line, where the entry was never bound, and an unbound-local
    error escapes.  An extraction error raised by the search itself, or by
    [add_entry] on the first search result, escapes too, and no message at
    all is sent for it. *)
Theorem enqueue_escaping_errors env (s : VoiceState.t) (q : string) :
  let evs := snd (Music.enqueue env s q) in
  (Say CouldNotDownload ∈ evs -> last evs = Some (Raise UnboundLocalError))
  /\ (forall text, Raise (ExtractionError text) ∈ evs ->
        List.filter is_say evs = [] /\ last evs = Some (Raise (ExtractionError text)))
  /\ (forall u, add_entry env q = WrongEntryType ->
        extract_info env q = Info (Url u) ->
        add_entry env u = WrongEntryType ->
        Say CouldNotDownload ∈ evs)
  /\ (forall text, add_entry env q = WrongEntryType ->
        extract_info env q = SearchFails text ->
        Raise (ExtractionError text) ∈ evs)
  /\ (forall u text, add_entry env q = WrongEntryType ->
        extract_info env q = Info (Url u) ->
        add_entry env u = AddFails text ->
        Raise (ExtractionError text) ∈ evs).
Proof.
  unfold Music.enqueue, Music.enqueue_error_handler, Music.search_error_handler.
  destruct (add_entry env q) as [e| |text] eqn:Ha; simpl.
  - split; [intros Hin; elem_cases Hin|]. split; [intros t Hin; elem_cases Hin|].
    by repeat split.
  - destruct (extract_info env q) as [[u|]|text] eqn:Hx; simpl.
    + destruct (add_entry env u) as [e| |text] eqn:Hu; simpl.
      * split; [intros Hin; elem_cases Hin|].
        split; [intros t Hin; elem_cases Hin|].
        split; [by intros ? _ [= <-]; rewrite Hu|].
        split; [done|]. intros ? ? _ [= <-]. by rewrite Hu.
      * split; [done|]. split; [intros t Hin; elem_cases Hin|].
        split; [|split; [done|]].
        -- intros _ _ _ _. do 3 apply list_elem_of_further. apply list_elem_of_here.
        -- intros ? ? _ [= <-]. by rewrite Hu.
      * split; [intros Hin; elem_cases Hin|]. split.
        -- intros t Hin. elem_cases Hin. by simplify_eq.
        -- split; [by intros ? _ [= <-]; rewrite Hu|]. split; [done|].
           intros ? ? _ [= <-]. rewrite Hu. intros [= <-].
           do 3 apply list_elem_of_further. apply list_elem_of_here.
    + split; [intros Hin; elem_cases Hin|].
      split; [intros t Hin; elem_cases Hin|]. by repeat split.
    + split; [intros Hin; elem_cases Hin|]. split.
      * intros t Hin. elem_cases Hin. by simplify_eq.
      * split; [done|]. split; [|done]. intros t _ [= <-].
        do 2 apply list_elem_of_further. apply list_elem_of_here.
  - destruct (Music.upstream_error text); simpl;
      (split; [intros Hin; elem_cases Hin|];
       split; [intros t Hin; elem_cases Hin|]; by repeat split).
Qed.

(** How [play] is put together: the soundcloud notice, or whatever
    [summon] sent followed by one of the three refusals or by the
    resolution of the stripped query. *)
Lemma play_shape env (s : VoiceState.t) (author : Member) (song : string) :
  Music.play env s author song = (None, [Say SoundcloudUnsupported])
  \/ exists s1 pre,
       VoiceState.songs s1 = VoiceState.songs s
       /\ forallb (fun ev => negb (is_resolution ev)) pre = true
       /\ (Music.play env s author song = (Some s1, pre)
           \/ Music.play env s author song = (Some s1, pre ++ [Say QueueFull])
           \/ (me_voice_channel env <> voice_channel author
               /\ Music.play env s author song = (Some s1, pre ++ [Say NotInMyChannel]))
           \/ (me_voice_channel env = voice_channel author
               /\ Music.play env s author song
                  = (Some (fst (Music.enqueue env s1 (Py.strip_brackets song))),
                     pre ++ snd (Music.enqueue env s1 (Py.strip_brackets song))))).
Proof.
  unfold Music.play. destruct (Py.contains _ _); [by left|]. right.
  assert (Hpre : exists s1 pre ok,
             match VoiceState.voice s with
             | Some _ => (s, [], true)
             | None => Music.summon env s author
             end = (s1, pre, ok)
             /\ VoiceState.songs s1 = VoiceState.songs s
             /\ forallb (fun ev => negb (is_resolution ev)) pre = true).
  { destruct (VoiceState.voice s).
    - by exists s, [], true.
    - destruct (Music.summon env s author) as [[s1 pre] ok] eqn:Hs.
      exists s1, pre, ok. split; [done|]. by eapply songs_summon. }
  destruct Hpre as (s1 & pre & ok & -> & Hsongs & Hpre).
  exists s1, pre. split; [done|]. split; [done|].
  destruct ok; simpl; [|by left].
  destruct (Playlist.full _); [right; by left|].
  destruct (decide (me_voice_channel env = voice_channel author)) as [Heq|Hne].
  - rewrite bool_decide_eq_true_2 by done. simpl.
    destruct (Music.enqueue env s1 _). right. right. right. by split.
  - rewrite bool_decide_eq_false_2 by done. simpl. right. right. left. by split.
Qed.

(** X7.  A requester who is not in the channel the bot is in gets nothing
    resolved and nothing queued: whatever else happens, [play] makes no
    call to the resolver and leaves the queue as it was. *)
Theorem play_needs_shared_channel env (s : VoiceState.t) (author : Member)
    (song : string) :
  me_voice_channel env <> voice_channel author ->
  forallb (fun ev => negb (is_resolution ev)) (snd (Music.play env s author song)) = true
  /\ (forall s', fst (Music.play env s author song) = Some s' ->
        VoiceState.songs s' = VoiceState.songs s).
Proof.
  intros Hne.
  destruct (play_shape env s author song)
    as [-> | (s1 & pre & Hsongs & Hpre & [-> | [-> | [[_ ->] | [Heq _]]]])];
    simpl; [done| | | |done].
  - split; [done|]. by intros ? [= <-].
  - rewrite forallb_app, Hpre. split; [done|]. by intros ? [= <-].
  - rewrite forallb_app, Hpre. split; [done|]. by intros ? [= <-].
Qed.

Lemma play_needs_shared_channel_witness :
  forallb (fun ev => negb (is_resolution ev))
    (snd (Music.play online (party 10 ∅ 1) dave "a song")) = true
  /\ (forall s', fst (Music.play online (party 10 ∅ 1) dave "a song") = Some s' ->
        VoiceState.songs s' = VoiceState.songs (party 10 ∅ 1)).
Proof.
  apply (play_needs_shared_channel online (party 10 ∅ 1) dave "a song").
  discriminate.
Defined.

Lemma strip_brackets_clean (s : string) :
  string_forallb (fun c => negb (is_bracket c)) (Py.strip_brackets s) = true.
Proof.
  induction s as [|c s IH]; simpl; [done|].
  fold (is_bracket c). destruct (is_bracket c) eqn:Hc; simpl; [done|].
  by rewrite Hc.
Qed.

Lemma strip_brackets_id (s : string) :
  string_forallb (fun c => negb (is_bracket c)) s = true -> Py.strip_brackets s = s.
Proof.
  induction s as [|c s IH]; simpl; [done|].
  fold (is_bracket c). intros [Hc Hs]%andb_true_iff.
  apply negb_true_iff in Hc. rewrite Hc. by rewrite IH.
Qed.

(** X8.  The first thing [play] asks the resolver, when it asks at all, is
    to add the query with every [<], [>], [[] and []] removed; a query
    without those characters is passed on unchanged. *)
Theorem play_resolves_stripped_query env (s : VoiceState.t) (author : Member)
    (song : string) :
  (forall ev, head (List.filter is_resolution (snd (Music.play env s author song)))
              = Some ev ->
              ev = AddEntry (Py.strip_brackets song))
  /\ string_forallb (fun c => negb (is_bracket c)) (Py.strip_brackets song) = true
  /\ (string_forallb (fun c => negb (is_bracket c)) song = true ->
      Py.strip_brackets song = song).
Proof.
  split; [|split; [apply strip_brackets_clean | apply strip_brackets_id]].
  assert (Hnone : forall pre, forallb (fun ev => negb (is_resolution ev)) pre = true ->
                              List.filter is_resolution pre = []).
  { induction pre as [|ev pre IH]; simpl; [done|].
    intros [Hev Hpre]%andb_true_iff. apply negb_true_iff in Hev.
    rewrite Hev. by apply IH. }
  destruct (play_shape env s author song)
    as [-> | (s1 & pre & Hsongs & Hpre & [-> | [-> | [[_ ->] | [_ ->]]]])];
    simpl; rewrite ?List.filter_app, ?Hnone by done; simpl; try done.
  assert (Hhead : exists rest,
            snd (Music.enqueue env s1 (Py.strip_brackets song))
            = AddEntry (Py.strip_brackets song) :: rest).
  { unfold Music.enqueue. repeat case_match; simpl; eauto. }
  destruct Hhead as [rest ->]. simpl. by intros ev [= <-].
Qed.

(** ** Texts of upstream errors *)

Lemma split_go_nonempty (sep s : string) (skip : nat) (cur : list ascii) :
  Py.split_go sep s skip cur <> [].
Proof.
  revert skip cur. induction s as [|c s IH]; intros skip cur;
    cbn [Py.split_go]; [done|].
  destruct skip; [|apply IH]. destruct (String.prefix sep (String c s)); [done|apply IH].
Qed.

Lemma split_without_separator (sep s : string) (cur : list ascii) :
  Py.contains sep s = false -> List.length (Py.split_go sep s 0 cur) = 1%nat.
Proof.
  revert cur. induction s as [|c s IH]; intros cur; [done|].
  cbn [Py.contains Py.split_go]. intros [Hp Hc]%orb_false_iff.
  rewrite Hp. by apply IH.
Qed.

Lemma split_with_separator (sep s : string) (cur : list ascii) :
  sep <> EmptyString -> Py.contains sep s = true ->
  (2 <= List.length (Py.split_go sep s 0 cur))%nat.
Proof.
  intros Hsep. revert cur. induction s as [|c s IH]; intros cur.
  - destruct sep; [done|]. discriminate.
  - cbn [Py.contains Py.split_go]. intros Hc.
    destruct (String.prefix sep (String c s)) eqn:Hp.
    + simpl.
      pose proof (split_go_nonempty sep s (String.length sep - 1) []) as Hne.
      destruct (Py.split_go sep s (String.length sep - 1) []); [done|]. simpl. lia.
    + simpl in Hc. by apply IH.
Qed.

Lemma upstream_error_none (text : string) :
  Music.upstream_error text = None <-> Py.contains blank_line text = false.
Proof.
  unfold Music.upstream_error, Py.split. fold blank_line. split.
  - intros H. destruct (Py.contains blank_line text) eqn:Hc; [|done].
    apply (split_with_separator blank_line text []) in Hc; [|done].
    destruct (Py.split_go blank_line text 0 []) as [|a [|b l]]; simpl in *;
      [lia | lia | discriminate].
  - intros Hc. apply (split_without_separator blank_line text []) in Hc.
    destruct (Py.split_go blank_line text 0 []) as [|a [|b l]]; simpl in *;
      [done | done | lia].
Qed.

(** X9.  Both error handlers of [play] take the second paragraph of the
    upstream text.  A text without a blank line has none: the handler
    sends nothing and an index error escapes.  A text with a blank line
    always yields exactly one message. *)
Theorem error_text_needs_blank_line (text : string) :
  (Py.contains blank_line text = false ->
     Music.enqueue_error_handler text = [Raise IndexError]
     /\ Music.search_error_handler text = [Raise IndexError])
  /\ (Py.contains blank_line text = true ->
      exists error,
        Music.upstream_error text = Some error
        /\ Music.enqueue_error_handler text = [Say (ErrorText (Music.limit_length error))]
        /\ Music.search_error_handler text = [Say (ErrorText error)]).
Proof.
  unfold Music.enqueue_error_handler, Music.search_error_handler. split.
  - intros Hc. apply upstream_error_none in Hc. by rewrite Hc.
  - intros Hc. destruct (Music.upstream_error text) as [error|] eqn:Hu.
    + by exists error.
    + apply upstream_error_none in Hu. congruence.
Qed.

Lemma take_app_exact (n : nat) (s t : string) :
  (n <= String.length s)%nat -> Py.take n (Py.take n s +:+ t) = Py.take n s.
Proof.
  revert s. induction n as [|n IH]; intros [|c s] Hn; simpl in *; try done; [lia|].
  rewrite IH; [done|lia].
Qed.

(** X10.  The cut applied to an upstream error: a text shorter than 2000
    characters is sent as it is; a text of 2000 characters or more is
    replaced by its first 1996 characters followed by three dots, 1999
    characters in all.  Cutting twice is cutting once, and the first 1996
    characters always survive. *)
Theorem limit_length_shape (error : string) :
  ((String.length error < 2000)%nat -> Music.limit_length error = error)
  /\ ((2000 <= String.length error)%nat ->
      Music.limit_length error = Py.take 1996 error +:+ "..."
      /\ String.length (Music.limit_length error) = 1999%nat)
  /\ Music.limit_length (Music.limit_length error) = Music.limit_length error
  /\ Py.take 1996 (Music.limit_length error) = Py.take 1996 error.
Proof.
  assert (Hlong : (2000 <= String.length error)%nat ->
            Music.limit_length error = Py.take 1996 error +:+ "..."
            /\ String.length (Music.limit_length error) = 1999%nat).
  { intros H. unfold Music.limit_length.
    destruct (Nat.leb_spec 2000 (String.length error)); [|lia].
    split; [done|]. rewrite length_append, length_take.
    change (String.length "...") with 3%nat. lia. }
  split; [apply limit_length_short|]. split; [exact Hlong|]. split.
  - apply limit_length_short, limit_length_bound.
  - destruct (Nat.lt_ge_cases (String.length error) 2000) as [Hs|Hl].
    + by rewrite limit_length_short.
    + destruct (Hlong Hl) as [-> _]. apply take_app_exact. lia.
Qed.

Lemma forallb_rev_string (f : ascii -> bool) (acc : list ascii) (tl : string) :
  string_forallb f (Py.rev_string acc tl) = forallb f acc && string_forallb f tl.
Proof.
  revert tl. induction acc as [|c acc IH]; intros tl; simpl; [done|].
  rewrite IH. simpl. destruct (f c), (forallb f acc); simpl; try done.
Qed.

Lemma words_go_clean (s : string) (cur : list ascii) :
  forallb (fun c => negb (Py.isspace c)) cur = true ->
  Forall (fun w => string_forallb (fun c => negb (Py.isspace c)) w = true)
    (Py.words_go s cur).
Proof.
  revert cur. induction s as [|c s IH]; intros cur Hcur; simpl.
  - destruct cur; [constructor|]. constructor; [|constructor].
    rewrite forallb_rev_string, Hcur. done.
  - destruct (Py.isspace c) eqn:Hc.
    + destruct cur; [by apply IH|]. constructor; [|by apply IH].
      rewrite forallb_rev_string, Hcur. done.
    + apply IH. simpl. by rewrite Hc.
Qed.

Lemma forallb_append (f : ascii -> bool) (a b : string) :
  string_forallb f (a +:+ b) = string_forallb f a && string_forallb f b.
Proof. induction a as [|c a IH]; simpl; [done|]. by rewrite IH, andb_assoc. Qed.

Lemma forallb_join (f : ascii -> bool) (l : list string) :
  f " "%char = true ->
  Forall (fun w => string_forallb f w = true) l ->
  string_forallb f (Py.join " " l) = true.
Proof.
  intros Hsp Hl. unfold Py.join. induction Hl as [|w l Hw Hl IH]; [done|].
  simpl. destruct l as [|w' l]; [done|].
  rewrite forallb_append, Hw. simpl. rewrite Hsp. exact IH.
Qed.

(** X11.  What the handlers send is a single line: the only whitespace in
    it is the plain space, so line feeds, tabs and the like of the
    upstream text never reach the chat. *)
Theorem upstream_error_single_line (text error : string) :
  Music.upstream_error text = Some error ->
  string_forallb (fun c => negb (Py.isspace c) || Ascii.eqb c " ") error = true.
Proof.
  unfold Music.upstream_error.
  destruct (Py.split _ text !! 1%nat) as [para|]; [|done]. intros [= <-].
  apply forallb_join; [done|].
  apply Forall_drop.
  eapply Forall_impl; [apply (words_go_clean para []); done|].
  simpl. intros w Hw. clear -Hw. induction w as [|c w IH]; simpl in *; [done|].
  apply andb_true_iff in Hw as [-> Hw]. simpl. by apply IH.
Qed.

Lemma upstream_error_single_line_witness :
  string_forallb (fun c => negb (Py.isspace c) || Ascii.eqb c " ") "bad thing" = true.
Proof.
  apply (upstream_error_single_line noisy_error "bad thing"). reflexivity.
Defined.

(** ** Volume and the player *)

Lemma is_playing_update_player (f : Player.t -> Player.t) (s : VoiceState.t) :
  (forall p, Player.done (f p) = Player.done p) ->
  VoiceState.is_playing (VoiceState.update_player f s) = VoiceState.is_playing s.
Proof.
  intros Hf. unfold VoiceState.is_playing, VoiceState.update_player, Player.is_done.
  simpl. destruct (VoiceState.voice s); [|done].
  destruct (VoiceState.current s) as [e|]; simpl; [|done].
  destruct (Entry.player e); simpl; [by rewrite Hf|done].
Qed.

Lemma truediv_small (value : Z) :
  - 200 <= value <= 200 ->
  Py.truediv value 100 = Some (inject_Z value / 100)%Q.
Proof.
  intros Hv. unfold Py.truediv.
  assert (Hbig : 200 < Py.float_limit * 100) by (vm_compute; reflexivity).
  replace (Z.abs value <? Py.float_limit * 100) with true; [done|].
  symmetry. apply Z.ltb_lt. lia.
Qed.

Lemma truediv_overflow (value : Z) :
  Py.truediv value 100 = None <-> Py.float_limit * 100 <= Z.abs value.
Proof.
  unfold Py.truediv. destruct (Z.ltb_spec (Z.abs value) (Py.float_limit * 100)).
  - split; [discriminate|lia].
  - done.
Qed.

Lemma max0_sign (value : Z) (gain : Q) :
  Py.truediv value 100 = Some gain ->
  (0 <= value -> Py.max0 gain = gain) /\ (value < 0 -> Py.max0 gain = 0%Q).
Proof.
  unfold Py.truediv. destruct (_ <? _); [|discriminate]. intros [= <-].
  unfold Py.max0.
  destruct (Qle_bool 0 (inject_Z value / inject_Z 100)) eqn:Hle.
  - split; [done|]. intros Hv. apply Qle_bool_iff in Hle.
    unfold Qle in Hle. simpl in Hle. lia.
  - split; [|done]. intros Hv.
    assert (Qle_bool 0 (inject_Z value / inject_Z 100) = true); [|congruence].
    apply Qle_bool_iff. unfold Qle. simpl. lia.
Qed.

(** X12.  An accepted volume is always stored, and the queue, the votes
    and the quota are never touched.  While nothing plays the command does
    only that and sends no message at all.  While a track plays it sets the
    gain of the running player and reports the gain the player kept, and
    the track keeps playing: the kept gain is the hundredth of the value
    when the value is not negative and zero when it is.  A negative value
    so large that its hundredth is no float is stored too, but then the
    division raises, the gain is left as it was and no message is sent. *)
Theorem volume_reaches_player (s : VoiceState.t) (value : Z) :
  value <= 200 ->
  let s' := fst (Music.volume s (Some value)) in
  let evs := snd (Music.volume s (Some value)) in
  VoiceState.volume s' = value
  /\ VoiceState.songs s' = VoiceState.songs s
  /\ VoiceState.skip_votes s' = VoiceState.skip_votes s
  /\ VoiceState.required_skips s' = VoiceState.required_skips s
  /\ VoiceState.is_playing s' = VoiceState.is_playing s
  /\ (VoiceState.is_playing s = false ->
      s' = VoiceState.set_volume value s /\ evs = [])
  /\ (VoiceState.is_playing s = true ->
      forall gain, Py.truediv value 100 = Some gain ->
        current_gain s' = Some (Py.max0 gain)
        /\ evs = [Say (VolumeSet (Py.max0 gain))]
        /\ (0 <= value -> Py.max0 gain = (inject_Z value / 100)%Q)
        /\ (value < 0 -> Py.max0 gain = 0%Q))
  /\ (VoiceState.is_playing s = true -> Py.truediv value 100 = None ->
      s' = VoiceState.set_volume value s /\ evs = [Raise OverflowError])
  /\ (Py.truediv value 100 = None <-> value <= - (Py.float_limit * 100)).
Proof.
  intros Hv. unfold Music.volume. rewrite (proj2 (Z.ltb_ge _ _) Hv).
  change (VoiceState.is_playing (VoiceState.set_volume value s))
    with (VoiceState.is_playing s).
  assert (Hover : Py.truediv value 100 = None <-> value <= - (Py.float_limit * 100)).
  { rewrite truediv_overflow.
    assert (200 < Py.float_limit * 100) by (vm_compute; reflexivity). lia. }
  destruct (VoiceState.is_playing s) eqn:Hp.
  - destruct (Py.truediv value 100) as [gain|] eqn:Hdiv; simpl.
    + split; [done|]. split; [done|]. split; [done|]. split; [done|].
      split; [by rewrite is_playing_update_player|]. split; [done|].
      split; [|split; [done|exact Hover]].
      intros _ g [= <-].
      apply is_playing_spec in Hp as (v & e & p & _ & He & Hpl & _).
      split.
      { unfold current_gain, VoiceState.update_player. simpl.
        rewrite He. simpl. by rewrite Hpl. }
      split; [done|].
      destruct (max0_sign value gain Hdiv) as [Hpos Hneg]. split; [|done].
      intros H0. rewrite (Hpos H0).
      rewrite truediv_small in Hdiv by lia. by injection Hdiv as <-.
    + split; [done|]. split; [done|]. split; [done|]. split; [done|].
      split; [done|]. split; [done|]. split; [done|]. split; [done|exact Hover].
  - simpl. split; [done|]. split; [done|]. split; [done|]. split; [done|].
    split; [done|]. split; [done|]. split; [done|]. split; [done|exact Hover].
Qed.

Lemma volume_reaches_player_witness :
  let s := party 10 ∅ 1 in
  let s' := fst (Music.volume s (Some (-5))) in
  let evs := snd (Music.volume s (Some (-5))) in
  VoiceState.volume s' = -5
  /\ VoiceState.songs s' = VoiceState.songs s
  /\ VoiceState.skip_votes s' = VoiceState.skip_votes s
  /\ VoiceState.required_skips s' = VoiceState.required_skips s
  /\ VoiceState.is_playing s' = VoiceState.is_playing s
  /\ (VoiceState.is_playing s = false ->
      s' = VoiceState.set_volume (-5) s /\ evs = [])
  /\ (VoiceState.is_playing s = true ->
      forall gain, Py.truediv (-5) 100 = Some gain ->
        current_gain s' = Some (Py.max0 gain)
        /\ evs = [Say (VolumeSet (Py.max0 gain))]
        /\ (0 <= -5 -> Py.max0 gain = (inject_Z (-5) / 100)%Q)
        /\ (-5 < 0 -> Py.max0 gain = 0%Q))
  /\ (VoiceState.is_playing s = true -> Py.truediv (-5) 100 = None ->
      s' = VoiceState.set_volume (-5) s /\ evs = [Raise OverflowError])
  /\ (Py.truediv (-5) 100 = None <-> -5 <= - (Py.float_limit * 100)).
Proof.
  apply (volume_reaches_player (party 10 ∅ 1) (-5)). lia.
Defined.

(** The gain a negative volume leaves, and the reply that goes with it. *)
Example negative_volume_mutes :
  current_gain (fst (Music.volume (party 10 ∅ 1) (Some (-5)))) = Some 0%Q
  /\ snd (Music.volume (party 10 ∅ 1) (Some (-5))) = [Say (VolumeSet 0)].
Proof. split; reflexivity. Qed.

Lemma volume_silent (s : VoiceState.t) (value : Z) :
  value <= 200 -> VoiceState.is_playing s = false ->
  Music.volume s (Some value) = (VoiceState.set_volume value s, []).
Proof.
  intros Hv Hp. unfold Music.volume. rewrite (proj2 (Z.ltb_ge _ _) Hv).
  change (VoiceState.is_playing (VoiceState.set_volume value s))
    with (VoiceState.is_playing s). by rewrite Hp.
Qed.

(** X13.  A volume set while the worker waits for the file of the entry
    it has dequeued is not lost.  The command is silent; once the
    downloader has staged the file, the worker starts the player and gives
    it the gain the player keeps of the stored volume: its hundredth, or
    zero for a negative volume.  When the stored volume is a negative
    value so large that its hundredth is no float, the worker dies on the
    division with the player already running at its initial gain. *)
Theorem volume_applies_to_next_track (w : Worker.t) (e : Entry.t) (vc : VoiceClient)
    (value : Z) (f : string) :
  Worker.pc w = Worker.Staging ->
  VoiceState.current (Worker.state w) = Some e ->
  Entry.player e = None ->
  VoiceState.voice (Worker.state w) = Some vc ->
  value <= 200 ->
  f <> EmptyString ->
  let w1 := Worker.with_state (fst (Music.volume (Worker.state w) (Some value))) w in
  let w2 :=
    Worker.with_state
      (VoiceState.set_current
         (option_map (Entry.set_filename (Some f)) (VoiceState.current (Worker.state w1)))
         (Worker.state w1)) w1 in
  let w3 := Worker.audio_player_task w2 in
  snd (Music.volume (Worker.state w) (Some value)) = []
  /\ Worker.step w w1 /\ Worker.step w1 w2 /\ Worker.step w2 w3
  /\ VoiceState.is_playing (Worker.state w3) = true
  /\ (forall gain, Py.truediv value 100 = Some gain ->
        Worker.pc w3 = Worker.Waiting
        /\ current_gain (Worker.state w3) = Some (Py.max0 gain)
        /\ (0 <= value -> Py.max0 gain = (inject_Z value / 100)%Q)
        /\ (value < 0 -> Py.max0 gain = 0%Q))
  /\ (Py.truediv value 100 = None ->
      Worker.pc w3 = Worker.Crashed
      /\ current_gain (Worker.state w3) = Some (Player.volume Player.started)).
Proof.
  intros Hpc He Hpl Hvc Hv Hf w1 w2 w3.
  assert (Hnp : VoiceState.is_playing (Worker.state w) = false).
  { apply not_playing_cases. eauto. }
  assert (Hvol := volume_silent _ _ Hv Hnp).
  assert (Hfile : Worker.has_filename (Entry.set_filename (Some f) e) = true).
  { unfold Worker.has_filename. simpl. apply negb_true_iff.
    by apply String.eqb_neq. }
  assert (Hw3 : w3 = Worker.audio_player_task
                       {| Worker.state :=
                            VoiceState.set_current
                              (Some (Entry.set_filename (Some f) e))
                              (VoiceState.set_volume value (Worker.state w));
                          Worker.pc := Worker.Staging;
                          Worker.thread_alive := Worker.thread_alive w |}).
  { unfold w3, w2, w1, Worker.with_state. rewrite Hvol. simpl. by rewrite He, Hpc. }
  split; [by rewrite Hvol|].
  split; [apply Worker.step_volume|].
  split; [apply Worker.step_staged; exact Hpc|].
  split; [apply Worker.step_worker|].
  rewrite Hw3. unfold Worker.audio_player_task. simpl. rewrite Hfile, Hvc.
  destruct (Py.truediv value 100) as [gain|] eqn:Hdiv; simpl.
  - split; [unfold VoiceState.is_playing; simpl; by rewrite Hvc|].
    split; [|done]. intros g [= <-]. split; [done|]. split; [done|].
    destruct (max0_sign value gain Hdiv) as [Hpos Hneg]. split; [|done].
    intros H0. rewrite (Hpos H0).
    rewrite truediv_small in Hdiv by lia. by injection Hdiv as <-.
  - split; [unfold VoiceState.is_playing; simpl; by rewrite Hvc|].
    split; [done|]. by intros _.
Qed.

Lemma volume_applies_to_next_track_witness :
  let w := waiting_for_file in
  let f := "audio_tmp/track"%string in
  let w1 := Worker.with_state (fst (Music.volume (Worker.state w) (Some 80))) w in
  let w2 :=
    Worker.with_state
      (VoiceState.set_current
         (option_map (Entry.set_filename (Some f)) (VoiceState.current (Worker.state w1)))
         (Worker.state w1)) w1 in
  let w3 := Worker.audio_player_task w2 in
  snd (Music.volume (Worker.state w) (Some 80)) = []
  /\ Worker.step w w1 /\ Worker.step w1 w2 /\ Worker.step w2 w3
  /\ VoiceState.is_playing (Worker.state w3) = true
  /\ (forall gain, Py.truediv 80 100 = Some gain ->
        Worker.pc w3 = Worker.Waiting
        /\ current_gain (Worker.state w3) = Some (Py.max0 gain)
        /\ (0 <= 80 -> Py.max0 gain = (inject_Z 80 / 100)%Q)
        /\ (80 < 0 -> Py.max0 gain = 0%Q))
  /\ (Py.truediv 80 100 = None ->
      Worker.pc w3 = Worker.Crashed
      /\ current_gain (Worker.state w3) = Some (Player.volume Player.started)).
Proof.
  apply (volume_applies_to_next_track waiting_for_file
           (Entry.set_filename None (track alice 40 40 None))
           (lounge ["1001"; "1002"]) 80 "audio_tmp/track");
    try reflexivity; [lia | discriminate].
Defined.

(** ** Pausing *)

(** X14.  While a track plays, pausing and then resuming leaves the state
    exactly as it was when the player was not paused, pausing twice is
    pausing once, and a paused track still counts as playing. *)
Theorem pause_then_resume (s : VoiceState.t) :
  VoiceState.is_playing s = true ->
  VoiceState.is_playing (Music.pause s) = true
  /\ current_paused (Music.pause s) = Some true
  /\ Music.pause (Music.pause s) = Music.pause s
  /\ current_paused (Music.resume (Music.pause s)) = Some false
  /\ (current_paused s = Some false -> Music.resume (Music.pause s) = s).
Proof.
  intros Hp.
  assert (Hpp : VoiceState.is_playing (Music.pause s) = true).
  { unfold Music.pause. rewrite Hp. by rewrite is_playing_update_player. }
  unfold Music.resume. rewrite Hpp. unfold Music.pause at 2. rewrite Hpp.
  unfold Music.pause. rewrite Hp.
  apply is_playing_spec in Hp as (v & e & p & Hv & He & Hpl & Hd).
  unfold current_paused, VoiceState.update_player. simpl. rewrite He. simpl.
  rewrite Hpl. simpl. repeat split; try done.
  intros [= Hpaused]. destruct s, e, p. simpl in *. simplify_eq. reflexivity.
Qed.

Lemma pause_then_resume_witness :
  VoiceState.is_playing (Music.pause (party 10 ∅ 1)) = true
  /\ current_paused (Music.pause (party 10 ∅ 1)) = Some true
  /\ Music.pause (Music.pause (party 10 ∅ 1)) = Music.pause (party 10 ∅ 1)
  /\ current_paused (Music.resume (Music.pause (party 10 ∅ 1))) = Some false
  /\ (current_paused (party 10 ∅ 1) = Some false ->
      Music.resume (Music.pause (party 10 ∅ 1)) = party 10 ∅ 1).
Proof.
  apply (pause_then_resume (party 10 ∅ 1)). reflexivity.
Defined.

(** ** After a skip *)

Lemma skip_not_playing_after (s : VoiceState.t) :
  VoiceState.is_playing (VoiceState.skip s) = false.
Proof.
  destruct (VoiceState.is_playing s) eqn:Hp.
  - apply idle_not_playing. by apply skip_makes_idle.
  - by rewrite skip_not_playing.
Qed.

(** X15.  Once the state's skip has run nothing plays any more: running
    it again changes nothing, and until the worker starts the next entry
    every further skip vote and moderator skip is answered with the
    not-playing message and pausing does nothing. *)
Theorem skip_is_final (s : VoiceState.t) (voter : Member) :
  let s' := VoiceState.skip s in
  VoiceState.is_playing s' = false
  /\ VoiceState.skip s' = s'
  /\ Music.skip s' voter = (s', [Say NotPlayingMusic])
  /\ Music.modskip s' = (s', [Say NotPlayingMusic])
  /\ Music.pause s' = s'
  /\ (VoiceState.is_playing s = true ->
      Music.modskip s = (s', [Say SongSkipped])
      /\ Music.modskip (fst (Music.modskip s)) = (s', [Say NotPlayingMusic])).
Proof.
  intros s'. assert (Hnp := skip_not_playing_after s). fold s' in Hnp.
  assert (Hpause : Music.pause s' = s') by (unfold Music.pause; by rewrite Hnp).
  assert (Hmod : Music.modskip s' = (s', [Say NotPlayingMusic])).
  { unfold Music.modskip. by rewrite Hnp. }
  split; [done|]. split.
  { rewrite skip_not_playing by done. unfold s', VoiceState.skip.
    destruct (VoiceState.is_playing (VoiceState.set_skip_votes ∅ s)); reflexivity. }
  split; [unfold Music.skip; by rewrite skip_vote_not_playing|].
  split; [done|]. split; [done|].
  intros Hp. unfold Music.modskip at 1 3. rewrite Hp. simpl. by split.
Qed.

(** ** More on the quota *)

(** X16.  A quota recomputed from the membership of the bot's channel is
    at least one vote and, in a channel that is not empty, at most the
    number of its members; the recomputation changes nothing else in the
    state, and repeating it changes nothing at all. *)
Theorem quota_is_reachable (s : VoiceState.t) (v : VoiceClient) (before after : Member) :
  VoiceState.voice s = Some v ->
  voice_channel before = Some (channel_id (channel v))
  \/ voice_channel after = Some (channel_id (channel v)) ->
  let n := Z.of_nat (List.length (voice_members (channel v))) in
  let r := VoiceState.required_skips (Music.on_voice_state_update s before after) in
  1 <= r
  /\ (1 <= n -> r <= n)
  /\ 3 * r <= n + 3
  /\ Music.on_voice_state_update s before after = VoiceState.set_required_skips r s
  /\ Music.on_voice_state_update (Music.on_voice_state_update s before after) before after
     = Music.on_voice_state_update s before after.
Proof.
  intros Hv Hch n r.
  assert (Hgate : Channel_neb (channel v) (voice_channel before)
                  && Channel_neb (channel v) (voice_channel after) = false).
  { unfold Channel_neb. destruct Hch as [-> | ->].
    - by rewrite bool_decide_eq_true_2.
    - rewrite (bool_decide_eq_true_2 (Some _ = Some _)) by done.
      apply andb_false_r. }
  assert (Hr : r = (n + 1 + 2) / 3).
  { unfold r, Music.on_voice_state_update. rewrite Hv, Hgate. simpl.
    by rewrite ceil_third. }
  assert (Hupd : Music.on_voice_state_update s before after
                 = VoiceState.set_required_skips r s).
  { unfold r at 1. unfold Music.on_voice_state_update. by rewrite Hv, Hgate. }
  assert (0 <= n) by lia.
  repeat split; try (rewrite Hr; Z.div_mod_to_equations; lia); [done|].
  rewrite Hupd at 1. unfold Music.on_voice_state_update at 1. simpl.
  rewrite Hv, Hgate. rewrite Hupd. unfold VoiceState.set_required_skips. simpl.
  f_equal. fold n. rewrite ceil_third. done.
Qed.

Lemma quota_is_reachable_witness :
  let s := VoiceState.set_voice (Some (lounge ["1001"; "1002"])) (VoiceState.init 10) in
  let n := Z.of_nat (List.length (voice_members (channel (lounge ["1001"; "1002"])))) in
  let r := VoiceState.required_skips (Music.on_voice_state_update s dave alice) in
  1 <= r
  /\ (1 <= n -> r <= n)
  /\ 3 * r <= n + 3
  /\ Music.on_voice_state_update s dave alice = VoiceState.set_required_skips r s
  /\ Music.on_voice_state_update (Music.on_voice_state_update s dave alice) dave alice
     = Music.on_voice_state_update s dave alice.
Proof.
  apply (quota_is_reachable
           (VoiceState.set_voice (Some (lounge ["1001"; "1002"])) (VoiceState.init 10))
           (lounge ["1001"; "1002"]) dave alice).
  - reflexivity.
  - right. reflexivity.
Defined.

Lemma on_voice_state_update_frame (s : VoiceState.t) (before after : Member) :
  (exists r, Music.on_voice_state_update s before after
             = VoiceState.set_required_skips r s)
  /\ (Music.on_voice_state_update s before after <> s ->
      exists v, VoiceState.voice s = Some v
                /\ (voice_channel before = Some (channel_id (channel v))
                    \/ voice_channel after = Some (channel_id (channel v)))).
Proof.
  unfold Music.on_voice_state_update, Channel_neb.
  destruct (VoiceState.voice s) as [v|].
  - destruct (decide (Some (channel_id (channel v)) = voice_channel before)) as [Hb|Hb].
    + rewrite (bool_decide_eq_true_2 _ Hb). simpl. split; [eauto|].
      intros _. exists v. eauto.
    + rewrite (bool_decide_eq_false_2 _ Hb). simpl.
      destruct (decide (Some (channel_id (channel v)) = voice_channel after)) as [Ha|Ha].
      * rewrite (bool_decide_eq_true_2 _ Ha). simpl. split; [eauto|].
        intros _. exists v. eauto.
      * rewrite (bool_decide_eq_false_2 _ Ha). simpl.
        split; [|done]. exists (VoiceState.required_skips s). by destruct s.
  - split; [|done]. exists (VoiceState.required_skips s). by destruct s.
Qed.

(** X25.  The membership handler begins by asking [get_voice_state] for
    the guild's state, so for a guild that had none it files a fresh state,
    and does nothing more.  For a guild that has a state it never changes
    anything but the quota, and it changes the state only when the bot has
    a voice client and the member who moved was, before or after, in the
    bot's channel.  The other guilds are never touched. *)
Theorem quota_only_follows_bot_channel cap (m : gmap snowflake VoiceState.t)
    (server : snowflake) (before after : Member) :
  let m' := gateway cap m server before after in
  (forall other, other <> server -> m' !! other = m !! other)
  /\ (m !! server = None -> m' !! server = Some (VoiceState.init cap))
  /\ (forall s, m !! server = Some s ->
        (exists r, m' !! server = Some (VoiceState.set_required_skips r s))
        /\ (m' !! server <> Some s ->
            exists v, VoiceState.voice s = Some v
                      /\ (voice_channel before = Some (channel_id (channel v))
                          \/ voice_channel after = Some (channel_id (channel v))))
        /\ (m' !! server = Some s -> m' = m)).
Proof.
  unfold gateway, Music.get_voice_state.
  destruct (m !! server) as [st|] eqn:Hl; simpl.
  - split; [by intros other Hne; rewrite lookup_insert_ne|]. split; [done|].
    intros s [= <-]. rewrite lookup_insert_eq.
    destruct (on_voice_state_update_frame st before after) as [[r Hr] Hchange].
    split; [exists r; by rewrite Hr|]. split.
    + intros Hne. apply Hchange. congruence.
    + intros [= ->]. by apply insert_id.
  - split.
    + intros other Hne. by rewrite !lookup_insert_ne.
    + split; [|done]. intros _. by rewrite lookup_insert_eq.
Qed.

(** ** Reading the reports *)

(** X17.  An estimate announced by [eta] reads as minutes and seconds of
    the total: the seconds are below 60 and sixty times the minutes plus
    the seconds is what remains of the current entry plus the durations of
    the queued entries before the author's first one, and the author does
    have an entry in the queue. *)
Theorem eta_reads_as_total (s : VoiceState.t) (cur : Entry.t) (author : Member)
    (m sec : Z) :
  VoiceState.current s = Some cur ->
  Music.eta s author = [Say (EtaReply (m, sec))] ->
  let queue := Playlist.entries (VoiceState.songs s) in
  0 <= sec < 60
  /\ 60 * m + sec = Entry.remaining cur + total_duration (before_first author queue)
  /\ queued author queue = true
  /\ 60 * m + sec <> Entry.duration cur.
Proof.
  intros Hcur Heta queue.
  assert (Hplay : VoiceState.is_playing s = true).
  { unfold Music.eta in Heta. by destruct (VoiceState.is_playing s). }
  assert (Hne : Playlist.entries (VoiceState.songs s) <> []).
  { intros Hq. unfold Music.eta in Heta. by rewrite Hplay, Hq in Heta. }
  rewrite (eta_answer s cur author Hplay Hcur Hne) in Heta. fold queue in Heta.
  set (count := Entry.remaining cur + total_duration (before_first author queue)) in *.
  destruct (Z.eqb_spec count (Entry.duration cur)); [discriminate|].
  destruct (queued author queue); [|discriminate].
  unfold Py.divmod in Heta. injection Heta as <- <-.
  pose proof (Z.div_mod count 60 ltac:(lia)).
  pose proof (Z.mod_pos_bound count 60 ltac:(lia)).
  repeat split; try lia. 
Qed.

Lemma eta_reads_as_total_witness :
  let queue := Playlist.entries (VoiceState.songs (party 10 ∅ 1)) in
  0 <= 10 < 60
  /\ 60 * 1 + 10
     = Entry.remaining (track dave 100 30 (Some Player.started))
       + total_duration (before_first bob queue)
  /\ queued bob queue = true
  /\ 60 * 1 + 10 <> Entry.duration (track dave 100 30 (Some Player.started)).
Proof.
  apply (eta_reads_as_total (party 10 ∅ 1) (track dave 100 30 (Some Player.started))
           bob 1 10); reflexivity.
Defined.

(** X18.  [progress] reports figures only while a track plays whose
    progress and length are both known and not zero, and then each pair
    reads as minutes and seconds of the figure, the seconds below 60. *)
Theorem progress_reads_as_figures (s : VoiceState.t) (pm ps lm ls : Z) :
  Music.progress s = [Say (ProgressReport (pm, ps) (lm, ls))] ->
  exists cur p l,
    VoiceState.is_playing s = true
    /\ VoiceState.current s = Some cur
    /\ Entry.progress cur = Some p /\ Entry.length cur = Some l
    /\ p <> 0 /\ l <> 0
    /\ 60 * pm + ps = p /\ 0 <= ps < 60
    /\ 60 * lm + ls = l /\ 0 <= ls < 60.
Proof.
  unfold Music.progress. intros H.
  destruct (VoiceState.is_playing s) eqn:Hp; [|discriminate]. simpl in H.
  destruct (VoiceState.current s) as [cur|]; [|discriminate].
  destruct (Entry.progress cur) as [p|] eqn:Hpr; [|discriminate].
  destruct (Entry.length cur) as [l|] eqn:Hl; simpl in H;
    [|by destruct (p =? 0)].
  destruct (Z.eqb_spec p 0); [discriminate|].
  destruct (Z.eqb_spec l 0); [discriminate|]. simpl in H.
  unfold Py.divmod in H. injection H as <- <- <- <-.
  exists cur, p, l.
  pose proof (Z.div_mod p 60 ltac:(lia)).
  pose proof (Z.mod_pos_bound p 60 ltac:(lia)).
  pose proof (Z.div_mod l 60 ltac:(lia)).
  pose proof (Z.mod_pos_bound l 60 ltac:(lia)).
  repeat split; try done; lia.
Qed.

Lemma progress_reads_as_figures_witness :
  exists cur p l,
    VoiceState.is_playing (party 10 ∅ 1) = true
    /\ VoiceState.current (party 10 ∅ 1) = Some cur
    /\ Entry.progress cur = Some p /\ Entry.length cur = Some l
    /\ p <> 0 /\ l <> 0
    /\ 60 * 1 + 10 = p /\ 0 <= 10 < 60
    /\ 60 * 1 + 40 = l /\ 0 <= 40 < 60.
Proof.
  apply (progress_reads_as_figures (party 10 ∅ 1) 1 10 1 40). reflexivity.
Defined.

(** ** Stopping *)

(** X19.  [stop] removes the guild's state from the dictionary and leaves
    every other guild alone; the state it drops is no longer playing, and a
    disconnect is attempted exactly when that state had a voice client.
    The next command in the guild starts from a fresh state: empty queue,
    no votes, and the volume back at 50. *)
Theorem stop_forgets_guild cap (m : gmap snowflake VoiceState.t) (server : snowflake) :
  let m' := (Music.stop cap m server).1.1 in
  let dropped := (Music.stop cap m server).1.2 in
  let evs := (Music.stop cap m server).2 in
  m' = delete server m
  /\ m' !! server = None
  /\ (forall other, other <> server -> m' !! other = m !! other)
  /\ VoiceState.is_playing dropped = false
  /\ (evs = [Disconnect] \/ evs = [])
  /\ (evs = [Disconnect] <->
      exists st vc, m !! server = Some st /\ VoiceState.voice st = Some vc)
  /\ fst (Music.get_voice_state cap m' server) = VoiceState.init cap
  /\ VoiceState.volume (fst (Music.get_voice_state cap m' server)) = 50.
Proof.
  unfold Music.stop, Music.get_voice_state.
  destruct (m !! server) as [st|] eqn:Hl; simpl.
  - rewrite lookup_delete_eq. simpl.
    assert (Hdrop : VoiceState.is_playing
              (if VoiceState.is_playing st
               then VoiceState.update_player Player.stop st else st) = false).
    { destruct (VoiceState.is_playing st) eqn:Hp; [|done].
      apply idle_not_playing.
      apply is_playing_spec in Hp as (v & e & p & _ & He & Hpl & _).
      unfold Worker.idle, VoiceState.update_player. simpl. rewrite He. simpl.
      by rewrite Hpl. }
    assert (Hvoice : VoiceState.voice
              (if VoiceState.is_playing st
               then VoiceState.update_player Player.stop st else st)
              = VoiceState.voice st).
    { by destruct (VoiceState.is_playing st). }
    rewrite Hvoice. split; [done|]. split; [done|].
    split; [by intros other Hne; rewrite lookup_delete_ne|].
    split; [done|].
    destruct (VoiceState.voice st) as [vc|] eqn:Hv.
    + split; [by left|]. split; [|done]. split; [eauto|done].
    + split; [by right|]. split; [|done]. split; [done|].
      intros (st' & vc & [= <-] & Hv'). congruence.
  - rewrite delete_insert_eq, lookup_delete_eq. simpl.
    split; [done|]. split; [done|].
    split; [by intros other Hne; rewrite lookup_delete_ne|].
    split; [done|]. split; [by right|]. split; [|done].
    split; [done|]. by intros (st' & vc & ? & _).
Qed.

(** ** The worker and the player *)

Lemma unstaged_with_state (w : Worker.t) (st : VoiceState.t) :
  unstaged w ->
  (forall e, VoiceState.current (Worker.state w) = Some e -> Entry.player e = None ->
     exists e', VoiceState.current st = Some e' /\ Entry.player e' = None
                /\ (Worker.has_filename e = false -> Worker.has_filename e' = false)) ->
  unstaged (Worker.with_state st w).
Proof.
  intros (Hpc & e & He & Hf & Hp) Hcur. split; [done|].
  destruct (Hcur e He Hp) as (e' & He' & Hp' & Hf'). exists e'. simpl. eauto.
Qed.

Lemma unstaged_step (w w' : Worker.t) :
  step_without_staging w w' -> unstaged w -> unstaged w'.
Proof.
  intros [Hstep Hkeep] Hun. pose proof Hun as (Hpc & e & He & Hf & Hp).
  assert (Hnp : VoiceState.is_playing (Worker.state w) = false).
  { apply not_playing_cases. eauto. }
  destruct Hstep.
  - unfold Worker.audio_player_task. by rewrite Hpc, He, Hf.
  - apply unstaged_with_state; [done|]. intros e0 He0 Hp0. simplify_eq.
    unfold VoiceState.update_player. simpl. rewrite He. simpl.
    eexists. split; [reflexivity|]. simpl. by rewrite Hp.
  - match goal with
    | Hdone : Worker.player_done _ = true |- _ =>
        unfold Worker.player_done in Hdone; rewrite He, Hp in Hdone; discriminate
    end.
  - split; [done|]. simpl in *. rewrite He in *. simpl in *.
    eexists. split; [done|]. split; [|done]. eapply Hkeep; eauto.
  - apply unstaged_with_state; [done|]. intros e0 He0 Hp0.
    rewrite skip_vote_not_playing by done. eauto.
  - apply unstaged_with_state; [done|]. intros e0 He0 Hp0.
    rewrite skip_not_playing by done. eauto.
  - apply unstaged_with_state; [done|]. intros e0 He0 Hp0.
    unfold Music.on_voice_state_update. repeat case_match; eauto.
  - apply unstaged_with_state; [done|]. eauto.
  - apply unstaged_with_state; [done|]. eauto.
  - apply unstaged_with_state; [done|]. intros e0 He0 Hp0.
    destruct (volume_frame (Worker.state w) value) as (_ & _ & _ & _ & Hc).
    eauto.
  - apply unstaged_with_state; [done|]. unfold Music.pause. rewrite Hnp. eauto.
  - apply unstaged_with_state; [done|]. unfold Music.resume. rewrite Hnp. eauto.
Qed.

(** X20.  The worker waits for the file of the entry it has dequeued for
    as long as it takes: whatever commands and events arrive, and however
    often the worker runs, as long as no step stages the file the worker
    stays where it is, nothing plays, and the entry keeps the turn. *)
Theorem worker_waits_for_staging (w w' : Worker.t) :
  rtc step_without_staging w w' ->
  unstaged w ->
  unstaged w'
  /\ VoiceState.is_playing (Worker.state w') = false
  /\ Worker.audio_player_task w' = w'.
Proof.
  intros Hrun Hun.
  assert (Hun' : unstaged w').
  { induction Hrun as [|w1 w2 w3 Hstep _ IH]; [done|].
    apply IH. by eapply unstaged_step. }
  split; [done|]. destruct Hun' as (Hpc & e & He & Hf & Hp). split.
  - apply not_playing_cases. eauto.
  - unfold Worker.audio_player_task. by rewrite Hpc, He, Hf.
Qed.

Lemma worker_waits_for_staging_witness :
  let w' := Worker.with_state (VoiceState.skip (Worker.state waiting_for_file))
              waiting_for_file in
  unstaged w'
  /\ VoiceState.is_playing (Worker.state w') = false
  /\ Worker.audio_player_task w' = w'.
Proof.
  apply (worker_waits_for_staging waiting_for_file).
  - apply rtc_once. split; [apply Worker.step_skip|].
    intros e e' He He' Hf. simpl in He, He'. simplify_eq. reflexivity.
  - split; [reflexivity|]. eexists. repeat split; reflexivity.
Defined.

(** The run that brings a fresh guild to [now_playing]. *)
Ltac reach_now_playing :=
  unfold now_playing, about_to_play;
  eapply rtc_l; [apply Worker.step_worker|];
  eapply rtc_l; [apply (Worker.step_joined _ (lounge ["1001"; "1002"]))|];
  eapply rtc_l;
    [apply (Worker.step_enqueue _ (track alice 40 40 None)); reflexivity|];
  eapply rtc_l; [apply Worker.step_worker|];
  apply rtc_once, Worker.step_worker.

Lemma playing_config cap (w : Worker.t) :
  rtc Worker.step (Worker.init cap) w ->
  VoiceState.is_playing (Worker.state w) = true ->
  Worker.pc w = Worker.Crashed
  \/ (Worker.pc w = Worker.Waiting
      /\ Worker.thread_alive w = true
      /\ VoiceState.play_next_song (Worker.state w) = false).
Proof.
  intros Hrun Hplay. apply inv_reachable in Hrun as [Hq Hpc].
  assert (Hbusy : ~ Worker.idle (Worker.state w)).
  { intros Hidle. apply idle_not_playing in Hidle. congruence. }
  destruct (Worker.pc w) eqn:Hw.
  - by destruct Hpc.
  - by destruct Hpc as (_ & ? & _).
  - destruct Hpc as (_ & (e & He & Hp) & _).
    destruct Hbusy. by eapply player_none_idle.
  - right. destruct Hpc as [Hidle Hev].
    assert (Halive : Worker.thread_alive w = true).
    { destruct (Worker.thread_alive w); [done|]. by destruct Hbusy; apply Hidle. }
    repeat split; try done.
    destruct (VoiceState.play_next_song (Worker.state w)); [|done].
    specialize (Hev eq_refl). congruence.
  - by left.
Qed.

(** X21.  In every configuration a guild can reach, a track that is
    playing has the worker waiting for its end, with the player thread
    alive and the completion event not yet set, unless the worker has
    died.  So the worker never dequeues while a track plays: run while the
    track plays, it does nothing.  And no queued entry has a player. *)
Theorem playing_means_worker_waits cap (w : Worker.t) :
  rtc Worker.step (Worker.init cap) w ->
  VoiceState.is_playing (Worker.state w) = true ->
  Forall (fun e => Entry.player e = None)
    (Playlist.entries (VoiceState.songs (Worker.state w)))
  /\ (Worker.pc w = Worker.Crashed
      \/ (Worker.pc w = Worker.Waiting
          /\ Worker.thread_alive w = true
          /\ VoiceState.play_next_song (Worker.state w) = false))
  /\ Worker.audio_player_task w = w.
Proof.
  intros Hrun Hplay.
  split; [by apply inv_reachable in Hrun as [Hq _]|].
  destruct (playing_config cap w Hrun Hplay) as [Hc | (Hpc & Halive & Hev)].
  - split; [by left|]. unfold Worker.audio_player_task. by rewrite Hc.
  - split; [by right|]. unfold Worker.audio_player_task. by rewrite Hpc, Hev.
Qed.

Lemma playing_means_worker_waits_witness :
  Forall (fun e => Entry.player e = None)
    (Playlist.entries (VoiceState.songs (Worker.state now_playing)))
  /\ (Worker.pc now_playing = Worker.Crashed
      \/ (Worker.pc now_playing = Worker.Waiting
          /\ Worker.thread_alive now_playing = true
          /\ VoiceState.play_next_song (Worker.state now_playing) = false))
  /\ Worker.audio_player_task now_playing = now_playing.
Proof.
  apply (playing_means_worker_waits 10 now_playing); [reach_now_playing|reflexivity].
Defined.

Lemma stalled_with_state (w : Worker.t) (st : VoiceState.t) :
  stalled w ->
  VoiceState.play_next_song st = VoiceState.play_next_song (Worker.state w) ->
  (Worker.idle (Worker.state w) -> Worker.idle st) ->
  stalled (Worker.with_state st w).
Proof.
  intros (Hpc & Halive & Hev & Hidle) Hev' Hidle'.
  unfold stalled. simpl. rewrite Hev'. auto.
Qed.

Lemma stalled_step (w w' : Worker.t) : Worker.step w w' -> stalled w -> stalled w'.
Proof.
  intros Hstep Hst. pose proof Hst as (Hpc & Halive & Hev & Hidle).
  destruct Hstep.
  - unfold Worker.audio_player_task. by rewrite Hpc, Hev.
  - congruence.
  - congruence.
  - congruence.
  - destruct (skip_vote_frame (Worker.state w) voter) as [votes Hf].
    apply stalled_with_state; [done| |]; by rewrite Hf.
  - apply stalled_with_state; [done| |apply idle_skip].
    unfold VoiceState.skip. by destruct (VoiceState.is_playing _).
  - apply stalled_with_state; [done| |];
      unfold Music.on_voice_state_update; by repeat case_match.
  - by apply stalled_with_state.
  - by apply stalled_with_state.
  - destruct (volume_frame (Worker.state w) value) as (_ & _ & ? & ? & _).
    by apply stalled_with_state.
  - apply stalled_with_state; [done| |]; unfold Music.pause;
      destruct (VoiceState.is_playing _); try done.
    by apply idle_update_player.
  - apply stalled_with_state; [done| |]; unfold Music.resume;
      destruct (VoiceState.is_playing _); try done.
    by apply idle_update_player.
Qed.

(** X22.  A skip moves a guild on when the staged file can be deleted.
    From every reachable configuration in which a track plays and the
    worker is alive, the state's skip and the player thread's callback are
    steps the guild can take.  When the callback deletes the file, two runs
    of the worker bring it to the next dequeue with the track stopped, the
    vote set empty, the event cleared and the queue as it was.  When the
    deletion fails, the callback ends before it sets the event and the
    worker stays suspended for good: whatever happens afterwards, the
    worker never runs on and nothing plays any more. *)
Theorem skip_leads_to_next_dequeue cap (w : Worker.t) :
  rtc Worker.step (Worker.init cap) w ->
  VoiceState.is_playing (Worker.state w) = true ->
  Worker.pc w <> Worker.Crashed ->
  let w1 := Worker.with_state (VoiceState.skip (Worker.state w)) w in
  let w4 :=
    Worker.audio_player_task (Worker.audio_player_task (Worker.toggle_next true w1)) in
  Worker.step w w1
  /\ (forall removed, Worker.step w1 (Worker.toggle_next removed w1))
  /\ rtc Worker.step w w4
  /\ Worker.pc w4 = Worker.Dequeue
  /\ Worker.player_done (Worker.state w4) = true
  /\ VoiceState.skip_votes (Worker.state w4) = ∅
  /\ VoiceState.play_next_song (Worker.state w4) = false
  /\ VoiceState.songs (Worker.state w4) = VoiceState.songs (Worker.state w)
  /\ (forall w', rtc Worker.step (Worker.toggle_next false w1) w' ->
        Worker.pc w' = Worker.Waiting
        /\ VoiceState.play_next_song (Worker.state w') = false
        /\ VoiceState.is_playing (Worker.state w') = false
        /\ Worker.audio_player_task w' = w').
Proof.
  intros Hrun Hplay Hlive w1 w4.
  destruct (playing_config cap w Hrun Hplay) as [Hc | (Hpc & Halive & Hev)]; [done|].
  assert (Hdone : Worker.player_done (VoiceState.skip (Worker.state w)) = true)
    by by apply skip_stops_player.
  assert (Hafter : forall removed, Worker.step w1 (Worker.toggle_next removed w1)).
  { intros removed. apply (Worker.step_after w1 removed); [exact Halive | exact Hdone]. }
  assert (Hw4 : w4 = {| Worker.state :=
                          VoiceState.set_skip_votes ∅
                            (VoiceState.set_play_next_song false
                               (VoiceState.set_play_next_song true
                                  (VoiceState.skip (Worker.state w))));
                        Worker.pc := Worker.Dequeue;
                        Worker.thread_alive := false |}).
  { unfold w4, w1, Worker.toggle_next, Worker.with_state, Worker.audio_player_task.
    simpl. rewrite Hpc. reflexivity. }
  split; [apply Worker.step_skip|]. split; [exact Hafter|]. split.
  { eapply rtc_l; [apply Worker.step_skip|]. fold w1.
    eapply rtc_l; [apply (Hafter true)|].
    eapply rtc_l; [apply Worker.step_worker|].
    apply rtc_once, Worker.step_worker. }
  rewrite Hw4. simpl. split; [done|]. split; [exact Hdone|].
  split; [done|]. split; [done|].
  split; [unfold VoiceState.skip; by destruct (VoiceState.is_playing _)|].
  intros w' Hrun'.
  assert (Hstuck : stalled (Worker.toggle_next false w1)).
  { unfold stalled, Worker.toggle_next, w1. simpl.
    split; [done|]. split; [done|]. split.
    - rewrite <- Hev. unfold VoiceState.skip. by destruct (VoiceState.is_playing _).
    - by apply skip_makes_idle. }
  assert (Hst : stalled w').
  { induction Hrun' as [|w2 w3 w5 Hstep _ IH]; [done|].
    apply IH. by eapply stalled_step. }
  destruct Hst as (Hpc' & _ & Hev' & Hidle').
  split; [done|]. split; [done|]. split; [by apply idle_not_playing|].
  unfold Worker.audio_player_task. by rewrite Hpc', Hev'.
Qed.

Lemma skip_leads_to_next_dequeue_witness :
  let w1 := Worker.with_state (VoiceState.skip (Worker.state now_playing)) now_playing in
  let w4 :=
    Worker.audio_player_task (Worker.audio_player_task (Worker.toggle_next true w1)) in
  Worker.step now_playing w1
  /\ (forall removed, Worker.step w1 (Worker.toggle_next removed w1))
  /\ rtc Worker.step now_playing w4
  /\ Worker.pc w4 = Worker.Dequeue
  /\ Worker.player_done (Worker.state w4) = true
  /\ VoiceState.skip_votes (Worker.state w4) = ∅
  /\ VoiceState.play_next_song (Worker.state w4) = false
  /\ VoiceState.songs (Worker.state w4) = VoiceState.songs (Worker.state now_playing)
  /\ (forall w', rtc Worker.step (Worker.toggle_next false w1) w' ->
        Worker.pc w' = Worker.Waiting
        /\ VoiceState.play_next_song (Worker.state w') = false
        /\ VoiceState.is_playing (Worker.state w') = false
        /\ Worker.audio_player_task w' = w').
Proof.
  apply (skip_leads_to_next_dequeue 10 now_playing);
    [reach_now_playing | reflexivity | discriminate].
Defined.

(** ** Votes and the requester *)

Lemma abstains_empty (s : VoiceState.t) :
  VoiceState.skip_votes s = ∅ -> requester_abstains s.
Proof. intros Hv cur _. rewrite Hv. apply not_elem_of_empty. Qed.

Lemma abstains_step (w w' : Worker.t) :
  Worker.step w w' -> Worker.inv w ->
  requester_abstains (Worker.state w) -> requester_abstains (Worker.state w').
Proof.
  intros Hstep Hinv Hab. pose proof (inv_step w w' Hstep Hinv) as Hinv'.
  destruct Hstep; simpl.
  - destruct Hinv as [_ Hpc]. destruct Hinv' as [_ Hpc'].
    unfold Worker.audio_player_task in *.
    destruct (Worker.pc w) eqn:Hw; simpl in *.
    + by apply abstains_empty.
    + destruct Hpc as (Hv & _). apply abstains_empty.
      by destruct (Playlist.get_next_entry _).
    + destruct Hpc as (Hv & _).
      destruct (VoiceState.current (Worker.state w)) as [e|]; [|done].
      destruct (Worker.has_filename e); [|done].
      destruct (VoiceState.voice (Worker.state w)); [|done].
      destruct (Py.truediv _ _); by apply abstains_empty.
    + by destruct (VoiceState.play_next_song _).
    + done.
  - intros cur. unfold VoiceState.update_player. simpl.
    destruct (VoiceState.current (Worker.state w)) as [e|] eqn:He; [|done].
    simpl. intros [= <-]. simpl. by apply Hab.
  - intros cur. destruct removed; simpl; apply Hab.
  - intros cur. simpl.
    destruct (VoiceState.current (Worker.state w)) as [e|] eqn:He; [|done].
    simpl. intros [= <-]. simpl. by apply Hab.
  - unfold Music.skip_vote.
    destruct (VoiceState.is_playing (Worker.state w)); simpl; [|done].
    destruct (VoiceState.current (Worker.state w)) as [e|] eqn:He; [|done].
    destruct (Member_eqb voter (Entry.requester e)) eqn:Hreq; [done|].
    destruct (bool_decide (member_id voter ∈ _)); simpl; [done|].
    assert (Hnew : requester_abstains
              (VoiceState.set_skip_votes
                 ({[member_id voter]} ∪ VoiceState.skip_votes (Worker.state w))
                 (Worker.state w))).
    { intros cur. simpl. rewrite He. intros [= <-].
      apply not_elem_of_union. split; [|by apply Hab].
      apply not_elem_of_singleton. intros Heq.
      unfold Member_eqb in Hreq. apply bool_decide_eq_false in Hreq. by destruct Hreq. }
    by destruct (_ <=? _).
  - apply abstains_empty, skip_clears_votes.
  - unfold Music.on_voice_state_update. by repeat case_match.
  - done.
  - done.
  - destruct (volume_frame (Worker.state w) value) as (_ & Hv & _).
    intros cur Hcur. rewrite Hv.
    unfold Music.volume in Hcur. destruct value as [value|]; [|by apply Hab].
    destruct (200 <? value); [by apply Hab|].
    destruct (VoiceState.is_playing _); simpl in Hcur; [|by apply Hab].
    destruct (Py.truediv value 100); simpl in Hcur; [|by apply Hab].
    destruct (VoiceState.current (Worker.state w)) as [e|] eqn:He; [|done].
    simpl in Hcur. injection Hcur as <-. simpl. by apply Hab.
  - unfold Music.pause. destruct (VoiceState.is_playing _); [|done].
    intros cur. unfold VoiceState.update_player. simpl.
    destruct (VoiceState.current (Worker.state w)) as [e|] eqn:He; [|done].
    simpl. intros [= <-]. simpl. by apply Hab.
  - unfold Music.resume. destruct (VoiceState.is_playing _); [|done].
    intros cur. unfold VoiceState.update_player. simpl.
    destruct (VoiceState.current (Worker.state w)) as [e|] eqn:He; [|done].
    simpl. intros [= <-]. simpl. by apply Hab.
Qed.

(** X23.  In every configuration a guild can reach, the requester of the
    current entry has no vote in the set: the tally shown and compared
    with the quota counts other members only. *)
Theorem requester_never_in_tally cap (w : Worker.t) (cur : Entry.t) :
  rtc Worker.step (Worker.init cap) w ->
  VoiceState.current (Worker.state w) = Some cur ->
  member_id (Entry.requester cur) ∉ VoiceState.skip_votes (Worker.state w).
Proof.
  intros Hrun.
  assert (H : Worker.inv w /\ requester_abstains (Worker.state w)).
  { assert (Hinit : Worker.inv (Worker.init cap)
                    /\ requester_abstains (Worker.state (Worker.init cap))).
    { split; [apply inv_init | by apply abstains_empty]. }
    revert Hinit. induction Hrun as [|w1 w2 w3 Hstep _ IH]; [done|].
    intros [Hinv Hab]. apply IH. split; [by eapply inv_step|by eapply abstains_step]. }
  destruct H as [_ Hab]. apply Hab.
Qed.

Lemma requester_never_in_tally_witness :
  member_id (Entry.requester (track alice 40 40 None))
  ∉ VoiceState.skip_votes (Worker.state now_playing).
Proof.
  apply (requester_never_in_tally 10 now_playing
           (Entry.set_player
              (Some (Player.set_volume (inject_Z 50 / 100)%Q Player.started))
              (track alice 40 40 None)));
    [reach_now_playing | reflexivity].
Defined.

(** ** Statistics *)

(** X24.  The three gateway handlers of the statistics cog do the same
    thing.  When the shard has its entry in the stored content, both sites
    are sent the number of guilds, and the shard's entry ends up with that
    same number as its server count and with the members of all guilds,
    counted guild by guild, as its member count; the shard's other fields
    and the other shards are untouched, and handling the same event again
    changes nothing further.  When the shard has no entry, both requests
    have already been posted when the assignment into the missing entry
    raises, and nothing is recorded. *)
Theorem stats_are_recorded (cfg : StatsUpdate.Config) (bot : StatsUpdate.Bot)
    (data : gmap string (gmap string Z)) :
  StatsUpdate.on_server_leave cfg bot data = StatsUpdate.on_server_join cfg bot data
  /\ StatsUpdate.on_ready cfg bot data = StatsUpdate.on_server_join cfg bot data
  /\ fst (StatsUpdate.on_server_join cfg bot data) = StatsUpdate.update cfg bot
  /\ map posted_count (StatsUpdate.update cfg bot)
     = [List.length (StatsUpdate.servers bot); List.length (StatsUpdate.servers bot)]
  /\ (data !! StatsUpdate.shard_key cfg = None ->
      snd (StatsUpdate.on_server_join cfg bot data) = None)
  /\ (forall shard, data !! StatsUpdate.shard_key cfg = Some shard ->
      exists data' shard',
        snd (StatsUpdate.on_server_join cfg bot data) = Some data'
        /\ data' !! StatsUpdate.shard_key cfg = Some shard'
        /\ shard' !! "server_count"%string
           = Some (Z.of_nat (List.length (StatsUpdate.servers bot)))
        /\ shard' !! "member_count"%string
           = Some (Z.of_nat
                     (sum_list (map (fun g => List.length (StatsUpdate.members g))
                                  (StatsUpdate.servers bot))))
        /\ (forall field,
              field <> "server_count"%string -> field <> "member_count"%string ->
              shard' !! field = shard !! field)
        /\ (forall key, key <> StatsUpdate.shard_key cfg -> data' !! key = data !! key)
        /\ StatsUpdate.on_server_join cfg bot data'
           = (StatsUpdate.update cfg bot, Some data')).
Proof.
  assert (Hmembers : List.length (StatsUpdate.get_all_members bot)
                     = sum_list (map (fun g => List.length (StatsUpdate.members g))
                                   (StatsUpdate.servers bot))).
  { unfold StatsUpdate.get_all_members.
    induction (StatsUpdate.servers bot) as [|g l IH]; simpl; [done|].
    by rewrite length_app, IH. }
  split; [done|]. split; [done|].
  unfold StatsUpdate.on_server_join.
  split; [by destruct (data !! StatsUpdate.shard_key cfg)|]. split; [done|].
  split; [by intros ->|].
  intros shard Hshard. rewrite Hshard. eexists _, _. split; [reflexivity|].
  split; [apply lookup_insert_eq|].
  split; [by rewrite lookup_insert_ne, lookup_insert_eq|].
  split; [by rewrite lookup_insert_eq, Hmembers|].
  split; [by intros field H1 H2; rewrite !lookup_insert_ne|].
  split; [by intros key Hk; rewrite lookup_insert_ne|].
  rewrite lookup_insert_eq. do 2 f_equal. rewrite insert_insert_eq. f_equal.
  apply map_eq. intros field.
  destruct (decide (field = "member_count"%string)) as [->|H1];
    [by rewrite !lookup_insert_eq|].
  rewrite (lookup_insert_ne _ "member_count"%string) by done.
  destruct (decide (field = "server_count"%string)) as [->|H2].
  - by rewrite lookup_insert_eq, lookup_insert_ne, lookup_insert_eq.
  - by rewrite !lookup_insert_ne.
Qed.
